(** * custom_color_palette: the segmented-palette module of dashboard_meteo

    A shallow embedding of [src/custom_color_palette.py] ([range],
    [_colors_from_spec], [creates_palette]) and the properties of it that the
    specification states.

    Numbers.  Python floats and NumPy float64 arrays are modelled by
    rationals ([Q]) and lists of them.  Where a rounding decides more than
    the last digits of a value, the number of values [range] returns, the
    operations are rounded as binary64 rounds them ([Float]).  Everywhere
    else the values are exact, those of the code being their roundings, so
    a statement "within floating tolerance" is proved as an equality of
    rationals ([==]).  Infinities and NaN are not modelled.  Python ints
    are [Z]; a length or a loop counter that cannot be negative is a
    [nat].

    Exceptions.  A Python call either returns or raises; a raise is modelled
    by the name of the exception class.

    Libraries.  The module imports NumPy and matplotlib.  The NumPy calls
    are modelled on lists ([np]).  The matplotlib calls are an interface
    ([mcolors]): the general statements hold for every implementation of
    it, and [Mpl.matplotlib] is the implementation the module runs on. *)

From Stdlib Require Import QArith Qround Qminmax Qpower Qabs.
From Stdlib Require Import ZArith List String Bool.
From Stdlib Require Import Sorted Permutation SetoidList Lia Lqa.
Import ListNotations.

Open Scope Q_scope.

(* ================================================================== *)
(** ** Python results *)

Module Py.

(** The class name of a raised exception. *)
Definition exn := string.

Inductive result (A : Type) : Type :=
| Ok (a : A)
| Raise (e : exn).

Arguments Ok {A} a.
Arguments Raise {A} e.

Definition bind {A B : Type} (r : result A) (k : A -> result B) : result B :=
  match r with
  | Ok a => k a
  | Raise e => Raise e
  end.

(** [mapM f l]: the list comprehension [[f(x) for x in l]], left to right,
    stopping at the first raise. *)
Fixpoint mapM {A B : Type} (f : A -> result B) (l : list A) : result (list B) :=
  match l with
  | [] => Ok []
  | x :: l' =>
      bind (f x) (fun y => bind (mapM f l') (fun ys => Ok (y :: ys)))
  end.

(** [foldM f l a]: a [for] loop over [l] threading the loop state [a]. *)
Fixpoint foldM {A S : Type} (f : S -> A -> result S) (l : list A) (s : S)
  : result S :=
  match l with
  | [] => Ok s
  | x :: l' => bind (f s x) (foldM f l')
  end.

(** [seq[i]] for a Python int [i]: a negative index counts from the end,
    an index outside [-len, len) raises IndexError. *)
Definition getitem {A : Type} (l : list A) (i : Z) : result A :=
  let n := Z.of_nat (length l) in
  let j := if (i <? 0)%Z then (i + n)%Z else i in
  if ((j <? 0) || (n <=? j))%Z then Raise "IndexError"%string
  else match nth_error l (Z.to_nat j) with
       | Some x => Ok x
       | None => Raise "IndexError"%string
       end.

Fixpoint replace_nth {A : Type} (l : list A) (k : nat) (v : A) : list A :=
  match l, k with
  | [], _ => []
  | _ :: l', O => v :: l'
  | x :: l', S k' => x :: replace_nth l' k' v
  end.

(** [seq[i] = v], with the same index rule as [getitem]. *)
Definition setitem {A : Type} (l : list A) (i : Z) (v : A) : result (list A) :=
  let n := Z.of_nat (length l) in
  let j := if (i <? 0)%Z then (i + n)%Z else i in
  if ((j <? 0) || (n <=? j))%Z then Raise "IndexError"%string
  else Ok (replace_nth l (Z.to_nat j) v).

End Py.

Import Py.

Declare Scope py_scope.
Delimit Scope py_scope with py.
Notation "x <- c ;; k" := (bind c (fun x => k))
  (at level 61, c at next level, right associativity) : py_scope.
Notation "' p <- c ;; k" := (bind c (fun x => let p := x in k))
  (at level 61, p pattern, c at next level, right associativity) : py_scope.
Open Scope py_scope.

(* ================================================================== *)
(** ** The NumPy calls the module makes

    NumPy is imported by the module, not part of it; these definitions
    follow NumPy's documented behaviour for one-dimensional float arrays. *)

Module np.

(** [int(np.floor(x))] and [int(np.ceil(x))]. *)
Definition floor (x : Q) : Z := Qfloor x.
Definition ceil (x : Q) : Z := Qceiling x.

(** [np.linspace(start, stop, num)] with the default [endpoint=True]:
    [arange(num) * step + start] with [step = (stop - start) / (num - 1)],
    the last sample then overwritten by [stop]; with fewer than two samples
    the step is undefined and [arange(num) * (stop - start) + start] is
    returned.  A negative [num] raises ValueError. *)
Definition linspace (start stop : Q) (num : Z) : result (list Q) :=
  if (num <? 0)%Z then Raise "ValueError"%string
  else
    let div := (num - 1)%Z in
    let delta := stop - start in
    let y := map (fun i => inject_Z (Z.of_nat i)) (seq 0 (Z.to_nat num)) in
    let y := if (0 <? div)%Z
             then let step := delta / inject_Z div in
                  map (fun v => v * step) y
             else map (fun v => v * delta) y in
    let y := map (fun v => v + start) y in
    if (1 <? num)%Z then setitem y (-1) stop else Ok y.

(** Insertion of a (value, index) pair into a list sorted by value; a pair
    goes before the pairs of equal value already there. *)
Fixpoint insert_key (x : Q * nat) (l : list (Q * nat)) : list (Q * nat) :=
  match l with
  | [] => [x]
  | y :: l' =>
      if Qle_bool (fst x) (fst y) then x :: l else y :: insert_key x l'
  end.

Definition sort_keys (l : list (Q * nat)) : list (Q * nat) :=
  fold_right insert_key [] l.

(** The order [insert_key] sorts by. *)
Definition key_le (x y : Q * nat) : Prop := fst x <= fst y.

(** The array with each value paired with its index. *)
Definition indexed (a : list Q) : list (Q * nat) :=
  combine a (seq 0 (length a)).

(** [np.argsort(a)]: the indices that sort [a] in ascending order.  NumPy
    leaves the order of equal values to the sorting algorithm; the model
    keeps them in index order. *)
Definition argsort (a : list Q) : list nat :=
  map snd (sort_keys (indexed a)).

(** [np.sort(a)]. *)
Definition sort (a : list Q) : list Q :=
  map fst (sort_keys (indexed a)).

(** [a[order]] for an index array, and [[a[i] for i in order]] for a
    list. *)
Definition take {A : Type} (a : list A) (order : list nat) : result (list A) :=
  mapM (fun i => getitem a (Z.of_nat i)) order.

(** [a.min()] and [a.max()]: a reduction over an empty array raises
    ValueError. *)
Definition amin (a : list Q) : result Q :=
  match a with
  | [] => Raise "ValueError"%string
  | x :: a' => Ok (fold_left Qmin a' x)
  end.

Definition amax (a : list Q) : result Q :=
  match a with
  | [] => Raise "ValueError"%string
  | x :: a' => Ok (fold_left Qmax a' x)
  end.

(** [np.clip(a, lo, hi)]. *)
Definition clip (a : list Q) (lo hi : Q) : list Q :=
  map (fun v => Qmin (Qmax v lo) hi) a.

(** The mask [aux[1:] != aux[:-1]] of [np.unique]: an element is kept when
    it differs from the one before it. *)
Fixpoint drop_repeats (prev : Q) (aux : list Q) : list Q :=
  match aux with
  | [] => []
  | x :: aux' =>
      if Qeq_bool x prev then drop_repeats x aux'
      else x :: drop_repeats x aux'
  end.

(** [np.unique(a)]: sort, then keep the first element of every run. *)
Definition unique (a : list Q) : list Q :=
  match sort a with
  | [] => []
  | x :: aux => x :: drop_repeats x aux
  end.

End np.

(* ================================================================== *)
(** ** Python floats

    A Python float is an IEEE 754 binary64 number: a rational with a
    significand of 53 bits.  An operation on floats returns the float
    nearest to the exact result, the one with the even significand when
    two are as near.  The exponent is not bounded here, so overflow to
    infinity and underflow are left out: a statement about floats asks for
    results within the range of binary64 where it depends on that. *)

Module Float.

(** The integer nearest to [y], the even one when two are as near. *)
Definition round_half_even (y : Q) : Z :=
  let f := Qfloor y in
  match Qcompare (y - inject_Z f) (1 # 2) with
  | Lt => f
  | Gt => (f + 1)%Z
  | Eq => if Z.even f then f else (f + 1)%Z
  end.

(** The binade of [x], for [x] other than 0: the [k] with
    [2 ^ k <= |x| < 2 ^ (k + 1)]. *)
Definition binade (x : Q) : Z :=
  let k := (Z.log2 (Z.abs (Qnum x)) - Z.log2 (Zpos (Qden x)))%Z in
  if Qle_bool (2 ^ k) (Qabs x) then k else (k - 1)%Z.

(** The float nearest to [x]: [x] counted in units of its last place,
    [2 ^ (binade x - 52)], and rounded to an integer. *)
Definition round (x : Q) : Q :=
  if Qeq_bool x 0 then 0
  else
    let ulp := 2 ^ (binade x - 52) in
    inject_Z (round_half_even (x / ulp)) * ulp.

(** [x - y] and [x / y] on floats, for [y] other than 0. *)
Definition sub (x y : Q) : Q := round (x - y).
Definition div (x y : Q) : Q := round (x / y).

(** The rationals that are floats. *)
Definition is_float (x : Q) : Prop := round x == x.

(** The largest float is just below [2 ^ 1024]: a result of magnitude
    below [2 ^ 1023] is rounded to a float and not to infinity. *)
Definition no_overflow (x : Q) : Prop := Qabs x < 2 ^ 1023.

End Float.

(* ================================================================== *)
(** ** range *)

(** [range(start, stop, step)], lines 29-37, on floats: a float literal of
    the source that is not a binary fraction is the float nearest to it,
    [Float.round (1 # 10)] for [0.1].  Dividing a Python float by zero
    raises ZeroDivisionError.  The number of values is the floor of the
    quotient of line 36 as the floats give it, the subtraction and the
    division each rounded.  The values, from line 37 and [np.linspace],
    are kept exact: those of the code are their roundings. *)
Definition range (start stop step : Q) : result (list Q) :=
  if Qeq_bool step 0 then Raise "ZeroDivisionError"%string
  else
    let n_steps :=
      (np.floor (Float.div (Float.sub stop start) step) + 1)%Z in
    np.linspace start (start + step * inject_Z (n_steps - 1)) n_steps.

(* ================================================================== *)
(** ** Colours *)

(** An RGBA colour: the 4-tuple [mcolors.to_rgba] returns, and the
    4-element array the interpolation computes with. *)
Record rgba : Type := RGBA { red : Q; green : Q; blue : Q; alpha : Q }.

(** [k * c] and [a + b] on 4-element arrays. *)
Definition rgba_scale (k : Q) (c : rgba) : rgba :=
  RGBA (k * red c) (k * green c) (k * blue c) (k * alpha c).

Definition rgba_add (a b : rgba) : rgba :=
  RGBA (red a + red b) (green a + green b) (blue a + blue b)
       (alpha a + alpha b).

(** Equality of colours as numbers, component by component. *)
Definition rgba_eq (a b : rgba) : Prop :=
  red a == red b /\ green a == green b /\ blue a == blue b
  /\ alpha a == alpha b.

(** The componentwise average of two colours. *)
Definition rgba_mean (a b : rgba) : rgba :=
  RGBA ((red a + red b) / 2) ((green a + green b) / 2)
       ((blue a + blue b) / 2) ((alpha a + alpha b) / 2).

(** The part of [matplotlib.colors] the module calls.  matplotlib is
    imported, not part of the repository, so its behaviour is a parameter
    of the development:
    - [color]: what a colour list may hold (a name, an RGB(A) tuple);
    - [to_rgba]: [mcolors.to_rgba], which raises on an invalid colour;
    - [from_list]: [LinearSegmentedColormap.from_list(name, stops)];
    - [cmap_N]: the attribute [N] of the colormap built;
    - [BoundaryNorm]: the constructor
      [BoundaryNorm(boundaries=, ncolors=, extend=)]. *)
Class mcolors : Type := {
  color : Type;
  to_rgba : color -> result rgba;
  LinearSegmentedColormap : Type;
  from_list : string -> list (Q * rgba) -> result LinearSegmentedColormap;
  cmap_N : LinearSegmentedColormap -> Z;
  BoundaryNorm_obj : Type;
  BoundaryNorm : list Q -> Z -> string -> result BoundaryNorm_obj
}.

(* ================================================================== *)
(** ** _colors_from_spec *)

Section Palette.

Context {M : mcolors}.

(** The first item of a segment: a list of colours, or a matplotlib
    Colormap.  The code only calls a Colormap on a float, so it is modelled
    by that function. *)
Inductive color_spec : Type :=
| Colors (names : list color)
| Cmap (cm : Q -> rgba).

(** [t = i / max(n - 1, 1)], line 59. *)
Definition interp_t (n i : nat) : Q :=
  inject_Z (Z.of_nat i) / inject_Z (Z.max (Z.of_nat n - 1) 1).

(** One pass of the interpolation loop, lines 59-67, for the counter [i]. *)
Definition interp_color (names : list color) (n i : nat) : result rgba :=
  let t := interp_t n i in
  let pos := t * inject_Z (Z.of_nat (length names) - 1) in
  let i0 := np.floor pos in
  let i1 := Z.min (np.ceil pos) (Z.of_nat (length names) - 1) in
  let frac := pos - inject_Z i0 in
  name0 <- getitem names i0 ;;
  c0 <- to_rgba name0 ;;
  name1 <- getitem names i1 ;;
  c1 <- to_rgba name1 ;;
  Ok (rgba_add (rgba_scale (1 - frac) c0) (rgba_scale frac c1)).

(** [_colors_from_spec(color_spec, n)], lines 40-68. *)
Definition _colors_from_spec (spec : color_spec) (n : nat)
  : result (list rgba) :=
  match spec with
  | Cmap cm =>
      xs <- np.linspace 0 1 (Z.of_nat n) ;;
      Ok (map cm xs)
  | Colors names =>
      if (length names =? 1)%nat then
        name0 <- getitem names 0 ;;
        c <- to_rgba name0 ;;
        Ok (repeat c n)
      else
        mapM (interp_color names n) (seq 0 n)
  end.

(** The interpolation as the specification words it: position
    [t = i/(n-1)] mapped onto the index range of the colour list, the
    floor/ceil pair of indices, and the fractional blend between the two
    colours.  [cols] are the colours of the list as RGBA. *)
Definition spec_interp (cols : list rgba) (n i : nat) : rgba :=
  let t := inject_Z (Z.of_nat i) / inject_Z (Z.of_nat n - 1) in
  let pos := t * inject_Z (Z.of_nat (length cols) - 1) in
  let frac := pos - inject_Z (Qfloor pos) in
  let black := RGBA 0 0 0 0 in
  let c0 := nth (Z.to_nat (Qfloor pos)) cols black in
  let c1 := nth (Z.to_nat (Qceiling pos)) cols black in
  rgba_add (rgba_scale (1 - frac) c0) (rgba_scale frac c1).

(* ================================================================== *)
(** ** creates_palette *)

(** An item of a segment after the first two; the code never looks at it. *)
Inductive extra_arg : Type :=
| ExtraValues (v : list Q)
| ExtraColors (c : color_spec).

(** A segment [paleta_i], a Python list.  The module's docstring gives its
    shape: [[colors, valores]], or [[colors, valores, ...]] with further
    items that are ignored.  A list too short to hold both is kept as such,
    since the code tests [len(pal) < 2]. *)
Inductive paleta : Type :=
| Pal0
| Pal1 (x : extra_arg)
| Pal (colors : color_spec) (valores : list Q) (rest : list extra_arg).

(** [len(pal)]. *)
Definition len (pal : paleta) : nat :=
  match pal with
  | Pal0 => 0
  | Pal1 _ => 1
  | Pal _ _ rest => 2 + length rest
  end.

(** A segment the loop does not skip. *)
Definition well_formed (pal : paleta) : bool := (2 <=? len pal)%nat.

(** The body of the loop of lines 87-97 on the accumulators
    [(all_vals, all_cols)]. *)
Definition accumulate_step (acc : list Q * list rgba) (pal : paleta)
  : result (list Q * list rgba) :=
  match pal with
  | Pal0 | Pal1 _ => Ok acc
  | Pal color_spec vals _ =>
      cols_seg <- _colors_from_spec color_spec (length vals) ;;
      Ok (fst acc ++ vals, snd acc ++ cols_seg)
  end.

(** Lines 84-97: the accumulated values and colours of all segments. *)
Definition accumulate (paletas : list paleta) : result (list Q * list rgba) :=
  foldM accumulate_step paletas ([], []).

(** [denom = (vmax - vmin) if vmax > vmin else 1.0], line 110. *)
Definition denominator (vmin vmax : Q) : Q :=
  if Qlt_le_dec vmin vmax then vmax - vmin else 1.

(** Lines 99-120 on the accumulators: the sorted values and the
    [color_list] of (normalized value, colour) pairs handed to
    [LinearSegmentedColormap.from_list]. *)
Definition normalize (all_vals : list Q) (all_cols : list rgba)
  : result (list Q * list (Q * rgba)) :=
  let order := np.argsort all_vals in
  all_vals <- np.take all_vals order ;;
  all_cols <- np.take all_cols order ;;
  vmin <- np.amin all_vals ;;
  vmax <- np.amax all_vals ;;
  let denom := denominator vmin vmax in
  let vals_norm := map (fun v => (v - vmin) / denom) all_vals in
  let vals_norm := np.clip vals_norm 0 1 in
  vals_norm <- setitem vals_norm 0 0 ;;
  vals_norm <- setitem vals_norm (-1) 1 ;;
  Ok (all_vals, combine vals_norm all_cols).

(** Lines 84-120 of [creates_palette]. *)
Definition color_list_of (paletas : list paleta)
  : result (list Q * list (Q * rgba)) :=
  acc <- accumulate paletas ;;
  normalize (fst acc) (snd acc).

(** What [creates_palette] returns: [cmap, ticks, norm, bounds]. *)
Record palette : Type := Palette {
  cmap : LinearSegmentedColormap;
  ticks : list Q;
  norm : BoundaryNorm_obj;
  bounds : list Q
}.

(** [creates_palette(paletas, extend)], lines 71-131. *)
Definition creates_palette (paletas : list paleta) (extend : string)
  : result palette :=
  stops <- color_list_of paletas ;;
  let all_vals := fst stops in
  let color_list := snd stops in
  cmap <- from_list "custom_ccp" color_list ;;
  let bounds := np.unique all_vals in
  let ticks := bounds in
  norm <- BoundaryNorm bounds (cmap_N cmap) extend ;;
  Ok (Palette cmap ticks norm bounds).

End Palette.

(* ================================================================== *)
(** ** matplotlib.colors, as the module uses it

    A model of the four matplotlib calls, after matplotlib's behaviour since
    version 3.3 (the first whose [BoundaryNorm] takes [extend]).  It is the
    instance at which the general statements below are evaluated. *)

Module Mpl.

(** A colour argument: a name, or a tuple of 3 or 4 floats. *)
Inductive color_arg : Type :=
| Name (s : string)
| Rgb (r g b : Q)
| Rgba (r g b a : Q).

(** A few entries of matplotlib's table of named colours; a name outside
    them is taken as unknown. *)
Definition named_color (s : string) : option rgba :=
  if String.eqb s "black" then Some (RGBA 0 0 0 1)
  else if String.eqb s "white" then Some (RGBA 1 1 1 1)
  else if String.eqb s "red" then Some (RGBA 1 0 0 1)
  else if String.eqb s "blue" then Some (RGBA 0 0 1 1)
  else None.

Definition in_unit (x : Q) : bool := Qle_bool 0 x && Qle_bool x 1.

Definition valid_rgba (c : rgba) : bool :=
  in_unit (red c) && in_unit (green c) && in_unit (blue c)
  && in_unit (alpha c).

(** [to_rgba(c)]: ValueError on an unknown name and on a component outside
    [0, 1]; a 3-tuple gets alpha 1. *)
Definition to_rgba (c : color_arg) : result rgba :=
  match c with
  | Name s =>
      match named_color s with
      | Some v => Ok v
      | None => Raise "ValueError"%string
      end
  | Rgb r g b =>
      if valid_rgba (RGBA r g b 1) then Ok (RGBA r g b 1)
      else Raise "ValueError"%string
  | Rgba r g b a =>
      if valid_rgba (RGBA r g b a) then Ok (RGBA r g b a)
      else Raise "ValueError"%string
  end.

(** The colormap object: its name, the (value, colour) pairs it was built
    from, and its number of levels [N]. *)
Record Colormap : Type := MkColormap {
  cm_name : string;
  cm_stops : list (Q * rgba);
  cm_N : Z
}.

(** [LinearSegmentedColormap.from_list(name, colors)] on a list of
    (value, colour) pairs of RGBA tuples, with the default [N=256].  An
    empty list raises.  The values are not looked at until the colormap is
    first used (the latest versions reject values that do not increase
    within [0, 1]; the lists [creates_palette] builds always do). *)
Definition from_list (name : string) (colors : list (Q * rgba))
  : result Colormap :=
  match colors with
  | [] => Raise "IndexError"%string
  | _ => Ok (MkColormap name colors 256)
  end.

Record Norm : Type := MkNorm {
  boundaries : list Q;
  Ncmap : Z;
  extend_mode : string;
  n_regions : Z
}.

Definition one_of (s a b : string) : bool := String.eqb s a || String.eqb s b.

(** [BoundaryNorm(boundaries, ncolors, extend=extend)]: ValueError with
    fewer than 2 boundaries ("You must provide at least 2 boundaries"), and
    when the bins, extensions included, outnumber [ncolors]. *)
Definition BoundaryNorm (bnds : list Q) (ncolors : Z) (extend : string)
  : result Norm :=
  match bnds with
  | [] => Raise "IndexError"%string
  | _ =>
      let N := Z.of_nat (length bnds) in
      if (N <? 2)%Z then Raise "ValueError"%string
      else
        let regions :=
          (N - 1 + (if one_of extend "min" "both" then 1 else 0)
                 + (if one_of extend "max" "both" then 1 else 0))%Z in
        if (ncolors <? regions)%Z then Raise "ValueError"%string
        else Ok (MkNorm bnds ncolors extend regions)
  end.

#[export] Instance matplotlib : mcolors :=
  Build_mcolors color_arg to_rgba Colormap from_list cm_N Norm BoundaryNorm.

End Mpl.

(** Two inputs on which the statements below are evaluated: a single
    colour over a single value, and the example of the specification,
    black to white over the values 0, 5, 10 of [range(0, 10, 5)]. *)
Definition one_value : list (@paleta Mpl.matplotlib) :=
  [Pal (@Colors Mpl.matplotlib [Mpl.Name "black"]) [5] []].

Definition black_to_white : list (@paleta Mpl.matplotlib) :=
  [Pal (@Colors Mpl.matplotlib [Mpl.Name "black"; Mpl.Name "white"])
       [0; 5; 10] []].

(* ================================================================== *)
(** ** Notions used in the statements *)

(** A colour whose four components are within [0, 1]: what matplotlib
    accepts as RGBA. *)
Definition in_gamut (c : rgba) : Prop :=
  (0 <= red c /\ red c <= 1) /\ (0 <= green c /\ green c <= 1) /\
  (0 <= blue c /\ blue c <= 1) /\ (0 <= alpha c /\ alpha c <= 1).

Section SegmentNotions.

Context {M : mcolors}.

(** The values of a segment, none for a segment the loop skips. *)
Definition valores (pal : paleta) : list Q :=
  match pal with
  | Pal _ vals _ => vals
  | _ => []
  end.

(** The colours the loop resolves for a segment. *)
Definition segment_colors (pal : paleta) : result (list rgba) :=
  match pal with
  | Pal color_spec vals _ => _colors_from_spec color_spec (length vals)
  | _ => Ok []
  end.

(** A segment without its items after the first two. *)
Definition drop_extra (pal : paleta) : paleta :=
  match pal with
  | Pal color_spec vals _ => Pal color_spec vals []
  | _ => pal
  end.

End SegmentNotions.

(* ================================================================== *)
(** ** The caller: the palette of a band in goes_plots.py *)

Section BandPalette.

Context {M : mcolors}.

(** What the block takes from its surroundings: how a colour name and an
    RGB tuple are written as colours, and the two matplotlib colormaps
    [plt.cm.Greys] and [plt.cm.Greys_r]. *)
Variable named : string -> color.
Variable rgb : Q -> Q -> Q -> color.
Variables Greys Greys_r : Q -> rgba.


End BandPalette.

(* ================================================================== *)
(** * Properties *)

(** ** Python lists and results *)

Lemma bind_Ok_inv {A B : Type} (r : result A) (k : A -> result B) (b : B) :
  bind r k = Ok b -> exists a, r = Ok a /\ k a = Ok b.
Proof.
  destruct r as [a | e]; simpl; intros H; [ | discriminate ].
  exists a; split; [ reflexivity | exact H ].
Qed.

(** [bind_inv H as x Hx]: from [H : (x <- r ;; k x) = Ok b], the value [x]
    that [r] returned, [Hx : r = Ok x], and [H : k x = Ok b]. *)
Tactic Notation "bind_inv" hyp(H) "as" simple_intropattern(x) ident(Hx) :=
  apply bind_Ok_inv in H; destruct H as (x & Hx & H).

Lemma mapM_length {A B : Type} (f : A -> result B) (l : list A) :
  forall l', mapM f l = Ok l' -> length l' = length l.
Proof.
  induction l as [ | x l IH ]; simpl; intros l' H.
  - injection H as <-. reflexivity.
  - bind_inv H as y Hy. bind_inv H as ys Hys.
    injection H as <-. simpl. f_equal. apply IH. exact Hys.
Qed.

Lemma mapM_Ok_map {A B : Type} (f : A -> result B) (g : A -> B) (l : list A) :
  (forall x, In x l -> f x = Ok (g x)) -> mapM f l = Ok (map g l).
Proof.
  induction l as [ | x l IH ]; simpl; intros H; [ reflexivity | ].
  rewrite (H x (or_introl eq_refl)). simpl.
  rewrite IH by (intros y Hy; apply H; right; exact Hy).
  reflexivity.
Qed.

Lemma mapM_nth_error {A B : Type} (f : A -> result B) (l : list A) :
  forall l' i x, mapM f l = Ok l' -> nth_error l i = Some x ->
    exists y, f x = Ok y /\ nth_error l' i = Some y.
Proof.
  induction l as [ | a l IH ]; intros l' i x H Hx.
  - destruct i; discriminate.
  - simpl in H. bind_inv H as y Hy. bind_inv H as ys Hys.
    injection H as <-. destruct i as [ | i ]; simpl in Hx.
    + injection Hx as <-. exists y. split; [ exact Hy | reflexivity ].
    + apply (IH ys i x Hys Hx).
Qed.

Lemma getitem_nth_error {A : Type} (l : list A) (i : nat) (x : A) :
  nth_error l i = Some x -> getitem l (Z.of_nat i) = Ok x.
Proof.
  intros H. unfold getitem. cbv zeta.
  assert (Hlt : (i < length l)%nat) by (apply nth_error_Some; congruence).
  destruct (Z.ltb_spec (Z.of_nat i) 0) as [Hn | _]; [ lia | ]. cbv iota.
  destruct (Z.ltb_spec (Z.of_nat i) 0) as [Hn | _]; [ lia | ].
  destruct (Z.leb_spec (Z.of_nat (length l)) (Z.of_nat i)) as [Hn | _];
    [ lia | ].
  simpl. rewrite Nat2Z.id, H. reflexivity.
Qed.

Lemma getitem_in_range {A : Type} (l : list A) (i : nat) :
  (i < length l)%nat -> exists x, getitem l (Z.of_nat i) = Ok x.
Proof.
  intros H. destruct (nth_error l i) as [x | ] eqn:E.
  - exists x. apply getitem_nth_error. exact E.
  - apply nth_error_None in E. lia.
Qed.

Lemma replace_nth_length {A : Type} (l : list A) (k : nat) (v : A) :
  length (replace_nth l k v) = length l.
Proof.
  revert k. induction l as [ | x l IH ]; intros [ | k ]; simpl; auto.
Qed.

Lemma nth_replace_nth {A : Type} (l : list A) (k i : nat) (v d : A) :
  (k < length l)%nat ->
  nth i (replace_nth l k v) d = if (i =? k)%nat then v else nth i l d.
Proof.
  revert k i. induction l as [ | x l IH ]; intros k i Hk; simpl in Hk.
  - lia.
  - destruct k as [ | k ]; destruct i as [ | i ]; simpl; try reflexivity.
    apply IH. lia.
Qed.

Lemma replace_nth_last {A : Type} (l : list A) (y v : A) :
  replace_nth (l ++ [y]) (length l) v = l ++ [v].
Proof.
  induction l as [ | x l IH ]; simpl; [ reflexivity | ].
  rewrite IH. reflexivity.
Qed.

(** [l[0] = v] on a non-empty list. *)
Lemma setitem_first {A : Type} (x : A) (l : list A) (v : A) :
  setitem (x :: l) 0 v = Ok (v :: l).
Proof.
  unfold setitem. cbv zeta.
  destruct (Z.leb_spec (Z.of_nat (length (x :: l))) 0) as [Hn | _];
    [ simpl length in Hn; lia | ].
  reflexivity.
Qed.

(** [l[-1] = v] on a non-empty list. *)
Lemma setitem_last {A : Type} (l : list A) (y v : A) :
  setitem (l ++ [y]) (-1) v = Ok (l ++ [v]).
Proof.
  unfold setitem. cbv zeta. rewrite length_app. simpl length.
  change (-1 <? 0)%Z with true. cbv iota.
  replace (-1 + Z.of_nat (length l + 1))%Z with (Z.of_nat (length l)) by lia.
  destruct (Z.ltb_spec (Z.of_nat (length l)) 0) as [Hn | _]; [ lia | ].
  destruct (Z.leb_spec (Z.of_nat (length l + 1)) (Z.of_nat (length l)))
    as [Hn | _]; [ lia | ].
  simpl. rewrite Nat2Z.id, replace_nth_last. reflexivity.
Qed.

Lemma setitem_neg1 {A : Type} (l : list A) (v : A) :
  l <> [] -> setitem l (-1) v = Ok (replace_nth l (length l - 1) v).
Proof.
  intros Hl. destruct (exists_last Hl) as (l' & y & ->).
  rewrite setitem_last, length_app. simpl length.
  replace (length l' + 1 - 1)%nat with (length l') by lia.
  rewrite replace_nth_last. reflexivity.
Qed.

Lemma setitem_length {A : Type} (l l' : list A) (i : Z) (v : A) :
  setitem l i v = Ok l' -> length l' = length l.
Proof.
  unfold setitem. cbv zeta. destruct (_ || _)%bool; [ discriminate | ].
  intros H. injection H as <-. apply replace_nth_length.
Qed.

Lemma nth_map_seq {B : Type} (f : nat -> B) (n i : nat) (d : B) :
  (i < n)%nat -> nth i (map f (seq 0 n)) d = f i.
Proof.
  intros H.
  rewrite (nth_indep _ d (f 0%nat)) by (rewrite length_map, length_seq; lia).
  rewrite map_nth, seq_nth by lia. reflexivity.
Qed.

Lemma last_as_nth {A : Type} (l : list A) (d : A) :
  last l d = nth (length l - 1) l d.
Proof.
  destruct l as [ | x l ]; [ reflexivity | ].
  destruct (@exists_last _ (x :: l)) as (l' & y & E); [ discriminate | ].
  rewrite E, last_last, length_app. simpl length.
  replace (length l' + 1 - 1)%nat with (length l') by lia.
  rewrite app_nth2, Nat.sub_diag by lia. reflexivity.
Qed.

(** ** np.linspace *)

Lemma inject_Z_pos_neq0 (z : Z) : (0 < z)%Z -> ~ inject_Z z == 0.
Proof.
  intros Hz E. unfold Qeq in E. simpl in E. lia.
Qed.

(** With [n >= 1] samples [np.linspace] returns [n] values, the [i]-th at
    [start + i * (stop - start) / (n - 1)]. *)
Lemma linspace_spec (a b : Q) (n : nat) :
  (1 <= n)%nat ->
  exists l,
    np.linspace a b (Z.of_nat n) = Ok l /\ length l = n /\
    forall i, (i < n)%nat ->
      nth i l 0 == a + inject_Z (Z.of_nat i) * ((b - a) / inject_Z (Z.of_nat n - 1)).
Proof.
  intros Hn. unfold np.linspace.
  destruct (Z.ltb_spec (Z.of_nat n) 0) as [Hneg | _]; [ lia | ].
  cbv zeta. rewrite Nat2Z.id.
  destruct (Z.ltb_spec 0 (Z.of_nat n - 1)) as [Hdiv | Hdiv].
  - destruct (Z.ltb_spec 1 (Z.of_nat n)) as [_ | H1]; [ | lia ].
    rewrite !map_map.
    set (f := fun i : nat =>
                inject_Z (Z.of_nat i) * ((b - a) / inject_Z (Z.of_nat n - 1)) + a).
    assert (Hlen : length (map f (seq 0 n)) = n)
      by (rewrite length_map, length_seq; reflexivity).
    rewrite setitem_neg1
      by (intros E; apply (f_equal (@length Q)) in E; rewrite Hlen in E;
          simpl in E; lia).
    eexists; split; [ reflexivity | ]. split.
    + rewrite replace_nth_length. exact Hlen.
    + intros i Hi. rewrite nth_replace_nth by (rewrite Hlen; lia).
      rewrite Hlen. destruct (Nat.eqb_spec i (n - 1)) as [-> | Hne].
      * replace (Z.of_nat (n - 1)) with (Z.of_nat n - 1)%Z by lia.
        field. apply inject_Z_pos_neq0. exact Hdiv.
      * rewrite nth_map_seq by exact Hi. unfold f. ring.
  - destruct (Z.ltb_spec 1 (Z.of_nat n)) as [H1 | _]; [ lia | ].
    assert (n = 1%nat) as -> by lia. simpl.
    eexists; split; [ reflexivity | ]. split; [ reflexivity | ].
    intros i Hi. assert (i = 0%nat) as -> by lia. simpl.
    unfold Qdiv. ring.
Qed.

(** [np.linspace] with a count that is not negative returns that many
    values. *)
Lemma linspace_total (a b : Q) (n : nat) :
  exists l, np.linspace a b (Z.of_nat n) = Ok l /\ length l = n.
Proof.
  destruct n as [ | n ].
  - exists []. split; reflexivity.
  - destruct (linspace_spec a b (S n)) as (l & H1 & H2 & _); [ lia | ].
    exists l. split; assumption.
Qed.

(** ** Python floats

    [Float.round] rounds to nearest: its result is a float with a
    significand of 53 bits ([round_significand], [round_is_float]), no
    number with such a significand is nearer ([round_nearest]), and it is
    within [2 ^ -53] of the number rounded ([round_error]). *)

Lemma pow2_pos (k : Z) : 0 < 2 ^ k.
Proof.
  apply Qpower_0_lt. reflexivity.
Qed.

Lemma pow2_succ (k : Z) : 2 ^ (k + 1) == 2 * 2 ^ k.
Proof.
  rewrite Qpower_plus by discriminate. rewrite Qpower_1_r. ring.
Qed.

Lemma pow2_log2 (a : Z) :
  (0 < a)%Z ->
  2 ^ Z.log2 a <= inject_Z a /\ inject_Z a < 2 ^ (Z.log2 a + 1).
Proof.
  intros Ha. destruct (Z.log2_spec a Ha) as [Hl Hu].
  pose proof (Z.log2_nonneg a) as H0.
  change 2 with (inject_Z 2).
  rewrite <- !Zpower_Qpower by lia.
  split; [ rewrite <- Zle_Qle; exact Hl | ].
  rewrite <- Zlt_Qlt. exact Hu.
Qed.

Lemma Qabs_as_quotient (x : Q) :
  Qabs x == inject_Z (Z.abs (Qnum x)) / inject_Z (Zpos (Qden x)).
Proof.
  destruct x as [a d]. unfold Qabs. simpl Qnum. simpl Qden.
  rewrite (Qmake_Qdiv (Z.abs a) d). reflexivity.
Qed.

(** The binade of a number other than 0 holds it. *)
Lemma binade_spec (x : Q) :
  ~ x == 0 ->
  2 ^ Float.binade x <= Qabs x /\ Qabs x < 2 ^ (Float.binade x + 1).
Proof.
  intros Hx.
  assert (Ha : (0 < Z.abs (Qnum x))%Z).
  { destruct x as [a d]. unfold Qeq in Hx. simpl in *. lia. }
  destruct (pow2_log2 _ Ha) as [Al Au].
  destruct (pow2_log2 (Zpos (Qden x)) eq_refl) as [Dl Du].
  pose proof (Qabs_as_quotient x) as Eq.
  set (A := inject_Z (Z.abs (Qnum x))) in *.
  set (D := inject_Z (Zpos (Qden x))) in *.
  set (la := Z.log2 (Z.abs (Qnum x))) in *.
  set (ld := Z.log2 (Zpos (Qden x))) in *.
  assert (HD : 0 < D) by reflexivity.
  unfold Float.binade. fold la ld.
  destruct (Qle_bool (2 ^ (la - ld)) (Qabs x)) eqn:E.
  - apply Qle_bool_iff in E. split; [ exact E | ].
    rewrite Eq. apply Qlt_shift_div_r; [ exact HD | ].
    replace (la - ld + 1)%Z with ((la + 1) - ld)%Z by lia.
    rewrite Qpower_minus by discriminate.
    pose proof (pow2_pos ld) as Pd. pose proof (pow2_pos (la + 1)) as Pa.
    apply Qlt_le_trans with (2 ^ (la + 1)); [ exact Au | ].
    assert (H1 : 1 <= D / 2 ^ ld) by (apply Qle_shift_div_l; lra).
    assert (E1 : 2 ^ (la + 1) / 2 ^ ld * D == 2 ^ (la + 1) * (D / 2 ^ ld)).
    { field. intros E0. rewrite E0 in Pd. discriminate. }
    rewrite E1. nra.
  - assert (E' : Qabs x < 2 ^ (la - ld)).
    { apply Qnot_le_lt. intros H. apply Qle_bool_iff in H. congruence. }
    replace (la - ld - 1 + 1)%Z with (la - ld)%Z by lia.
    split; [ | exact E' ].
    rewrite Eq. apply Qle_shift_div_l; [ exact HD | ].
    replace (la - ld - 1)%Z with (la - (ld + 1))%Z by lia.
    rewrite Qpower_minus by discriminate.
    pose proof (pow2_pos (ld + 1)) as Pd. pose proof (pow2_pos la) as Pa.
    apply Qle_trans with (2 ^ la); [ | exact Al ].
    assert (H1 : D / 2 ^ (ld + 1) <= 1) by (apply Qle_shift_div_r; lra).
    assert (E1 : 2 ^ la / 2 ^ (ld + 1) * D == 2 ^ la * (D / 2 ^ (ld + 1))).
    { field. intros E0. rewrite E0 in Pd. discriminate. }
    rewrite E1. nra.
Qed.

(** Rounding to an integer moves a number by a half at most. *)
Lemma round_half_even_near (y : Q) :
  Qabs (inject_Z (Float.round_half_even y) - y) <= 1 # 2.
Proof.
  unfold Float.round_half_even.
  pose proof (Qfloor_le y) as Hl. pose proof (Qlt_floor y) as Hu.
  rewrite inject_Z_plus in Hu. change (inject_Z 1) with 1 in Hu.
  set (f := Qfloor y) in *. apply Qabs_Qle_condition.
  destruct (Qcompare_spec (y - inject_Z f) (1 # 2)) as [E | E | E].
  - destruct (Z.even f); [ | rewrite inject_Z_plus;
                               change (inject_Z 1) with 1 ]; lra.
  - lra.
  - rewrite inject_Z_plus. change (inject_Z 1) with 1. lra.
Qed.

Lemma round_unfold (x : Q) :
  ~ x == 0 ->
  Float.round x
  = inject_Z (Float.round_half_even (x / 2 ^ (Float.binade x - 52)))
    * 2 ^ (Float.binade x - 52).
Proof.
  intros Hx. unfold Float.round.
  destruct (Qeq_bool x 0) eqn:E; [ | reflexivity ].
  apply Qeq_bool_eq in E. contradiction.
Qed.

(** Rounding to a float moves a number by half a unit in its last place
    at most, that is by [2 ^ -53] of it. *)
Lemma round_error (x : Q) :
  Qabs (Float.round x - x) <= Qabs x * 2 ^ (-53).
Proof.
  destruct (Qeq_dec x 0) as [E | Hx].
  { unfold Float.round. rewrite (proj2 (Qeq_bool_iff x 0) E).
    rewrite E. discriminate. }
  rewrite (round_unfold x Hx).
  destruct (binade_spec x Hx) as [Hb _].
  set (b := Float.binade x) in *.
  pose proof (pow2_pos (b - 52)) as Pu.
  set (ulp := 2 ^ (b - 52)) in *.
  pose proof (round_half_even_near (x / ulp)) as Hn.
  set (m := inject_Z (Float.round_half_even (x / ulp))) in *.
  assert (E1 : m * ulp - x == (m - x / ulp) * ulp).
  { field. intros E. rewrite E in Pu. discriminate. }
  rewrite E1, Qabs_Qmult, (Qabs_pos ulp) by lra.
  apply Qle_trans with ((1 # 2) * ulp).
  { apply Qmult_le_compat_r; [ exact Hn | lra ]. }
  apply Qle_trans with (2 ^ b * 2 ^ (-53)).
  - unfold ulp. replace (b - 52)%Z with (b + -53 + 1)%Z by lia.
    rewrite pow2_succ, Qpower_plus by discriminate. lra.
  - apply Qmult_le_compat_r; [ exact Hb | ].
    apply Qlt_le_weak, pow2_pos.
Qed.

Lemma round_nonneg (x : Q) : 0 <= x -> 0 <= Float.round x.
Proof.
  intros Hx. pose proof (round_error x) as H.
  rewrite (Qabs_pos x Hx) in H. apply Qabs_Qle_condition in H.
  assert (U : 2 ^ (-53) <= 1) by discriminate.
  nra.
Qed.

Lemma round_half_even_Z (m : Z) : Float.round_half_even (inject_Z m) = m.
Proof.
  unfold Float.round_half_even. rewrite Qfloor_Z.
  destruct (Qcompare_spec (inject_Z m - inject_Z m) (1 # 2)) as [E | E | E].
  - exfalso. assert (H : inject_Z m - inject_Z m == 0) by ring.
    rewrite H in E. discriminate.
  - reflexivity.
  - exfalso. assert (H : inject_Z m - inject_Z m == 0) by ring.
    rewrite H in E. discriminate.
Qed.

Lemma round_half_even_ge (m : Z) (y : Q) :
  inject_Z m <= y -> (m <= Float.round_half_even y)%Z.
Proof.
  intros H. unfold Float.round_half_even.
  assert (F : (m <= Qfloor y)%Z).
  { rewrite <- (Qfloor_Z m). apply Qfloor_resp_le. exact H. }
  destruct (Qcompare (y - inject_Z (Qfloor y)) (1 # 2));
    [ destruct (Z.even (Qfloor y)) | | ]; lia.
Qed.

Lemma round_half_even_le (m : Z) (y : Q) :
  y <= inject_Z m -> (Float.round_half_even y <= m)%Z.
Proof.
  intros H. unfold Float.round_half_even.
  pose proof (Qfloor_le y) as Hl. pose proof (Qlt_floor y) as Hu.
  rewrite inject_Z_plus in Hu. change (inject_Z 1) with 1 in Hu.
  assert (F : (Qfloor y <= m)%Z).
  { rewrite Zle_Qle. lra. }
  destruct (Z.eq_dec (Qfloor y) m) as [E | Hne].
  - assert (E0 : y - inject_Z (Qfloor y) == 0) by (rewrite E in *; lra).
    destruct (Qcompare_spec (y - inject_Z (Qfloor y)) (1 # 2)) as [C | C | C];
      rewrite E0 in C; try discriminate. lia.
  - destruct (Qcompare (y - inject_Z (Qfloor y)) (1 # 2));
      [ destruct (Z.even (Qfloor y)) | | ]; lia.
Qed.

(** The binade is the only exponent that holds a number. *)
Lemma binade_unique (x : Q) (k : Z) :
  2 ^ k <= Qabs x -> Qabs x < 2 ^ (k + 1) -> Float.binade x = k.
Proof.
  intros Hl Hu.
  assert (Hx : ~ x == 0).
  { intros E. rewrite E in Hl. pose proof (pow2_pos k). 
    change (Qabs 0) with 0 in Hl. lra. }
  destruct (binade_spec x Hx) as [Bl Bu].
  assert (H1 : (Float.binade x < k + 1)%Z).
  { apply (Qpower_lt_compat_l_inv 2); [ lra | reflexivity ]. }
  assert (H2 : (k < Float.binade x + 1)%Z).
  { apply (Qpower_lt_compat_l_inv 2); [ lra | reflexivity ]. }
  lia.
Qed.

Lemma round_half_even_comp (x y : Q) :
  x == y -> Float.round_half_even x = Float.round_half_even y.
Proof.
  intros E. unfold Float.round_half_even.
  rewrite (Qfloor_comp x y E).
  assert (E' : x - inject_Z (Qfloor y) == y - inject_Z (Qfloor y))
    by (rewrite E; reflexivity).
  rewrite (Qcompare_comp _ _ E' (1 # 2) (1 # 2) (Qeq_refl _)). reflexivity.
Qed.

(** No integer is nearer than the one rounding gives. *)
Lemma round_half_even_nearest (y : Q) (N : Z) :
  Qabs (inject_Z (Float.round_half_even y) - y) <= Qabs (inject_Z N - y).
Proof.
  pose proof (Qfloor_le y) as Hl. pose proof (Qlt_floor y) as Hu.
  rewrite inject_Z_plus in Hu. change (inject_Z 1) with 1 in Hu.
  assert (HN : inject_Z N <= inject_Z (Qfloor y)
               \/ inject_Z (Qfloor y) + 1 <= inject_Z N).
  { destruct (Z_le_gt_dec N (Qfloor y)) as [H | H].
    - left. rewrite <- Zle_Qle. exact H.
    - right. change 1 with (inject_Z 1). rewrite <- inject_Z_plus.
      rewrite <- Zle_Qle. lia. }
  unfold Float.round_half_even.
  set (f := Qfloor y) in *.
  apply Qabs_Qle_condition.
  destruct (Qcompare_spec (y - inject_Z f) (1 # 2)) as [E | E | E].
  - destruct (Z.even f).
    + destruct HN as [HN | HN].
      * rewrite (Qabs_neg (inject_Z N - y)) by lra. lra.
      * rewrite (Qabs_pos (inject_Z N - y)) by lra. lra.
    + rewrite inject_Z_plus. change (inject_Z 1) with 1.
      destruct HN as [HN | HN].
      * rewrite (Qabs_neg (inject_Z N - y)) by lra. lra.
      * rewrite (Qabs_pos (inject_Z N - y)) by lra. lra.
  - destruct HN as [HN | HN].
    + rewrite (Qabs_neg (inject_Z N - y)) by lra. lra.
    + rewrite (Qabs_pos (inject_Z N - y)) by lra. lra.
  - rewrite inject_Z_plus. change (inject_Z 1) with 1.
    destruct HN as [HN | HN].
    + rewrite (Qabs_neg (inject_Z N - y)) by lra. lra.
    + rewrite (Qabs_pos (inject_Z N - y)) by lra. lra.
Qed.

(** The significand of a rounding has 53 bits. *)
Lemma round_significand (x : Q) :
  ~ x == 0 ->
  let m := Float.round_half_even (x / 2 ^ (Float.binade x - 52)) in
  (2 ^ 52 <= Z.abs m <= 2 ^ 53)%Z.
Proof.
  intros Hx m.
  destruct (binade_spec x Hx) as [Bl Bu].
  set (b := Float.binade x) in *.
  pose proof (pow2_pos (b - 52)) as Pu.
  assert (Eb : 2 ^ b == 2 ^ 52 * 2 ^ (b - 52)).
  { rewrite <- Qpower_plus by discriminate. f_equiv. lia. }
  assert (Eb1 : 2 ^ (b + 1) == 2 ^ 53 * 2 ^ (b - 52)).
  { rewrite <- Qpower_plus by discriminate. f_equiv. lia. }
  set (u := 2 ^ (b - 52)) in *.
  assert (Ey : x == (x / u) * u) by (field; lra).
  set (y := x / u) in *.
  change (2 ^ 52) with (inject_Z (2 ^ 52)) in Eb.
  change (2 ^ 53) with (inject_Z (2 ^ 53)) in Eb1.
  destruct (Qlt_le_dec x 0) as [Hneg | Hpos].
  - rewrite (Qabs_neg x) in Bl, Bu by lra.
    assert (Y1 : y <= inject_Z (- 2 ^ 52)).
    { rewrite inject_Z_opp. nra. }
    assert (Y2 : inject_Z (- 2 ^ 53) <= y).
    { rewrite inject_Z_opp. nra. }
    pose proof (round_half_even_le _ _ Y1).
    pose proof (round_half_even_ge _ _ Y2). fold m in H, H0. lia.
  - rewrite (Qabs_pos x) in Bl, Bu by lra.
    assert (Y1 : inject_Z (2 ^ 52) <= y) by nra.
    assert (Y2 : y <= inject_Z (2 ^ 53)) by nra.
    pose proof (round_half_even_ge _ _ Y1).
    pose proof (round_half_even_le _ _ Y2). fold m in H, H0. lia.
Qed.

Lemma round_zero (x : Q) : x == 0 -> Float.round x = 0.
Proof.
  intros E. unfold Float.round.
  rewrite (proj2 (Qeq_bool_iff x 0) E). reflexivity.
Qed.

(** A rounding is a float: rounding it again changes nothing. *)
Lemma round_is_float (x : Q) : Float.is_float (Float.round x).
Proof.
  unfold Float.is_float.
  destruct (Qeq_dec x 0) as [E | Hx].
  { rewrite (round_zero x E). reflexivity. }
  pose proof (round_significand x Hx) as Hm. cbv zeta in Hm.
  rewrite (round_unfold x Hx).
  set (b := Float.binade x) in *.
  pose proof (pow2_pos (b - 52)) as Pu.
  assert (Eb : 2 ^ b == inject_Z (2 ^ 52) * 2 ^ (b - 52)).
  { change (inject_Z (2 ^ 52)) with (2 ^ 52).
    rewrite <- Qpower_plus by discriminate. f_equiv. lia. }
  assert (Eb1 : 2 ^ (b + 1) == inject_Z (2 ^ 53) * 2 ^ (b - 52)).
  { change (inject_Z (2 ^ 53)) with (2 ^ 53).
    rewrite <- Qpower_plus by discriminate. f_equiv. lia. }
  assert (Eb2 : 2 ^ (b + 1 + 1) == inject_Z (2 ^ 54) * 2 ^ (b - 52)).
  { change (inject_Z (2 ^ 54)) with (2 ^ 54).
    rewrite <- Qpower_plus by discriminate. f_equiv. lia. }
  assert (Eu : 2 ^ (b + 1 - 52) == 2 * 2 ^ (b - 52)).
  { rewrite <- pow2_succ. f_equiv. lia. }
  set (u := 2 ^ (b - 52)) in *.
  set (m := Float.round_half_even (x / u)) in *. clearbody m.
  set (f := inject_Z m * u).
  assert (Af : Qabs f == inject_Z (Z.abs m) * u).
  { unfold f. rewrite Qabs_Qmult, (Qabs_pos u) by lra. reflexivity. }
  assert (M1 : inject_Z (2 ^ 52) <= inject_Z (Z.abs m))
    by (rewrite <- Zle_Qle; lia).
  assert (Hf : ~ f == 0).
  { intros E. rewrite E in Af. change (Qabs 0) with 0 in Af.
    change (inject_Z (2 ^ 52)) with 4503599627370496 in M1. nra. }
  destruct (Z.eq_dec (Z.abs m) (2 ^ 53)) as [Emax | Hlt].
  - assert (Bf : Float.binade f = (b + 1)%Z).
    { apply binade_unique; rewrite Af, Emax; [ rewrite Eb1; lra | ].
      rewrite Eb2. change (inject_Z (2 ^ 53)) with 9007199254740992.
      change (inject_Z (2 ^ 54)) with 18014398509481984. lra. }
    rewrite (round_unfold f Hf), Bf.
    assert (Em : m = (2 * (m / 2))%Z).
    { change (2 ^ 53)%Z with 9007199254740992%Z in Emax.
      assert (H2 : m = 9007199254740992%Z \/ m = (-9007199254740992)%Z)
        by lia.
      destruct H2 as [-> | ->]; reflexivity. }
    assert (Ey : f / 2 ^ (b + 1 - 52) == inject_Z (m / 2)).
    { rewrite Eu. unfold f. rewrite Em at 1. rewrite inject_Z_mult.
      change (inject_Z 2) with 2. field. lra. }
    rewrite (round_half_even_comp _ _ Ey), round_half_even_Z.
    rewrite Eu. unfold f. rewrite Em at 2. rewrite inject_Z_mult.
    change (inject_Z 2) with 2. ring.
  - assert (M2 : inject_Z (Z.abs m) + 1 <= inject_Z (2 ^ 53)).
    { change 1 with (inject_Z 1). rewrite <- inject_Z_plus.
      rewrite <- Zle_Qle. lia. }
    assert (Bf : Float.binade f = b).
    { apply binade_unique; rewrite Af; [ rewrite Eb; nra | ].
      rewrite Eb1. nra. }
    rewrite (round_unfold f Hf), Bf. fold u.
    assert (Ey : f / u == inject_Z m) by (unfold f; field; lra).
    rewrite (round_half_even_comp _ _ Ey), round_half_even_Z.
    reflexivity.
Qed.

(** No number with a significand of 53 bits is nearer to [x] than its
    rounding. *)
Lemma round_nearest (x : Q) (n e : Z) :
  (Z.abs n <= 2 ^ 53)%Z ->
  Qabs (Float.round x - x) <= Qabs (inject_Z n * 2 ^ e - x).
Proof.
  intros Hn.
  destruct (Qeq_dec x 0) as [E | Hx].
  { rewrite (round_zero x E).
    assert (E0 : 0 - x == 0) by (rewrite E; reflexivity).
    rewrite E0. apply Qabs_nonneg. }
  rewrite (round_unfold x Hx).
  destruct (binade_spec x Hx) as [Bl _].
  set (b := Float.binade x) in *.
  pose proof (pow2_pos (b - 52)) as Pu.
  assert (Eb : 2 ^ b == inject_Z (2 ^ 52) * 2 ^ (b - 52)).
  { change (inject_Z (2 ^ 52)) with (2 ^ 52).
    rewrite <- Qpower_plus by discriminate. f_equiv. lia. }
  set (u := 2 ^ (b - 52)) in *.
  assert (Ex : x == (x / u) * u) by (field; lra).
  set (y := x / u) in *.
  set (m := Float.round_half_even y).
  assert (E1 : inject_Z m * u - x == (inject_Z m - y) * u)
    by (rewrite Ex at 1; ring).
  rewrite E1, Qabs_Qmult, (Qabs_pos u) by lra.
  destruct (Z_le_gt_dec (b - 52) e) as [Hge | Hlt].
  - set (N := (n * 2 ^ (e - (b - 52)))%Z).
    assert (EN : inject_Z n * 2 ^ e == inject_Z N * u).
    { unfold N, u. rewrite inject_Z_mult, Zpower_Qpower by lia.
      change (inject_Z 2) with 2. rewrite <- Qmult_assoc.
      rewrite <- Qpower_plus by discriminate.
      do 2 f_equiv. lia. }
    assert (E2 : inject_Z n * 2 ^ e - x == (inject_Z N - y) * u)
      by (rewrite EN; rewrite Ex at 1; ring).
    rewrite E2, Qabs_Qmult, (Qabs_pos u) by lra.
    apply Qmult_le_compat_r; [ | lra ].
    apply round_half_even_nearest.
  - set (g := inject_Z n * 2 ^ e).
    assert (G : Qabs g <= 2 ^ b).
    { unfold g. rewrite Qabs_Qmult, (Qabs_pos (2 ^ e))
        by (apply Qlt_le_weak, pow2_pos).
      change (Qabs (inject_Z n)) with (inject_Z (Z.abs n)).
      assert (N1 : inject_Z (Z.abs n) <= inject_Z (2 ^ 53))
        by (rewrite <- Zle_Qle; exact Hn).
      assert (N0 : 0 <= inject_Z (Z.abs n))
        by (change 0 with (inject_Z 0); rewrite <- Zle_Qle; lia).
      assert (P : 2 ^ e <= 2 ^ (b - 53))
        by (apply Qpower_le_compat_l; [ lia | discriminate ]).
      assert (Eb' : 2 ^ b == inject_Z (2 ^ 53) * 2 ^ (b - 53)).
      { change (inject_Z (2 ^ 53)) with (2 ^ 53).
        rewrite <- Qpower_plus by discriminate. f_equiv. lia. }
      pose proof (pow2_pos e). pose proof (pow2_pos (b - 53)).
      rewrite Eb'. nra. }
    assert (T : Qabs x <= Qabs (g - x) + Qabs g).
    { assert (E3 : x == - (g - x) + g) by ring.
      rewrite E3 at 1.
      eapply Qle_trans; [ apply Qabs_triangle | ].
      rewrite Qabs_opp. lra. }
    assert (A : Qabs (inject_Z m - y) * u <= Qabs x - 2 ^ b).
    { rewrite Eb.
      destruct (Qlt_le_dec x 0) as [Hneg | Hpos].
      - rewrite (Qabs_neg x) in * by lra.
        pose proof (round_half_even_nearest y (- 2 ^ 52)) as Hnear.
        fold m in Hnear. rewrite inject_Z_opp in Hnear.
        rewrite (Qabs_pos (- inject_Z (2 ^ 52) - y)) in Hnear by nra.
        rewrite Eb in Bl. nra.
      - rewrite (Qabs_pos x) in * by lra.
        pose proof (round_half_even_nearest y (2 ^ 52)) as Hnear.
        fold m in Hnear.
        rewrite (Qabs_neg (inject_Z (2 ^ 52) - y)) in Hnear by nra.
        rewrite Eb in Bl. nra. }
    lra.
Qed.

(** The quotient of line 36 as the floats give it, [fl(fl(a) / b)] for the
    exact difference [a], is the exact quotient [a / b] to within
    [2 ^ -51] of it. *)
Lemma float_quotient_near (a b : Q) :
  ~ b == 0 ->
  Qabs (Float.div (Float.round a) b - a / b) <= Qabs (a / b) * 2 ^ (-51).
Proof.
  intros Hb. unfold Float.div.
  pose proof (round_error a) as Ha.
  set (a' := Float.round a) in *.
  pose proof (round_error (a' / b)) as Hy.
  set (q := Float.round (a' / b)) in *.
  assert (E1 : Qabs (a' / b - a / b) <= Qabs (a / b) * 2 ^ (-53)).
  { assert (E : a' / b - a / b == (a' - a) * / b) by (field; exact Hb).
    rewrite E. unfold Qdiv. rewrite !Qabs_Qmult.
    pose proof (Qabs_nonneg (/ b)) as Hi.
    set (i := Qabs (/ b)) in *. set (u := 2 ^ (-53)) in *.
    set (A := Qabs a) in *. set (D := Qabs (a' - a)) in *. nra. }
  assert (E2 : Qabs (a' / b) <= Qabs (a / b) + Qabs (a' / b - a / b)).
  { assert (E : a' / b == a / b + (a' / b - a / b)) by ring.
    rewrite E at 1. apply Qabs_triangle. }
  assert (E3 : Qabs (q - a / b)
               <= Qabs (q - a' / b) + Qabs (a' / b - a / b)).
  { assert (E : q - a / b == (q - a' / b) + (a' / b - a / b)) by ring.
    rewrite E at 1. apply Qabs_triangle. }
  pose proof (Qabs_nonneg (a / b)) as H0.
  change (2 ^ (-53)) with (1 # 9007199254740992) in *.
  change (2 ^ (-51)) with (1 # 2251799813685248).
  lra.
Qed.

(** ** range *)

Lemma float_quotient_nonneg (start stop step : Q) :
  0 <= (stop - start) / step ->
  0 <= Float.div (Float.sub stop start) step.
Proof.
  intros He. unfold Float.sub.
  destruct (Qeq_dec step 0) as [E | Hne].
  { unfold Float.div. apply round_nonneg. rewrite E. unfold Qdiv.
    change (/ 0) with 0. rewrite Qmult_0_r. discriminate. }
  pose proof (float_quotient_near (stop - start) step Hne) as H.
  rewrite (Qabs_pos _ He) in H. apply Qabs_Qle_condition in H.
  change (2 ^ (-51)) with (1 # 2251799813685248) in H. lra.
Qed.

(** Whenever the quotient of line 36 is not negative, [range] returns its
    floor plus one values, the [i]-th at [start + step * i]. *)
Lemma range_closed_form (start stop step : Q) :
  ~ step == 0 -> 0 <= Float.div (Float.sub stop start) step ->
  exists l,
    range start stop step = Ok l /\
    Z.of_nat (length l)
    = (Qfloor (Float.div (Float.sub stop start) step) + 1)%Z /\
    forall i, (i < length l)%nat ->
      nth i l 0 == start + step * inject_Z (Z.of_nat i).
Proof.
  intros Hstep Hq. unfold range.
  destruct (Qeq_bool step 0) eqn:E0.
  { apply Qeq_bool_eq in E0. contradiction. }
  cbv zeta. unfold np.floor.
  set (q := Float.div (Float.sub stop start) step) in *.
  assert (Hfl : (0 <= Qfloor q)%Z).
  { change 0%Z with (Qfloor 0). apply Qfloor_resp_le. exact Hq. }
  set (n := Z.to_nat (Qfloor q + 1)).
  assert (Hn : (Qfloor q + 1)%Z = Z.of_nat n) by (unfold n; lia).
  rewrite Hn.
  destruct (linspace_spec start (start + step * inject_Z (Z.of_nat n - 1)) n)
    as (l & Hl & Hlen & Hnth); [ lia | ].
  exists l. split; [ exact Hl | ]. split; [ rewrite Hlen; reflexivity | ].
  intros i Hi. rewrite Hlen in Hi. rewrite (Hnth i Hi).
  destruct (Nat.eq_dec n 1) as [-> | Hne].
  - assert (i = 0%nat) as -> by lia. simpl. unfold Qdiv. ring.
  - field. apply inject_Z_pos_neq0. lia.
Qed.



(** [range(0.0, 0.3, 0.1)] has 3 values and ends at 0.2: the quotient of
    the float 0.3 by the float 0.1 is the float just below 3. *)
Example range_misses_stop :
  exists l,
    range 0 (Float.round (3 # 10)) (Float.round (1 # 10)) = Ok l /\
    length l = 3%nat /\ last l 0 == 2 * Float.round (1 # 10).
Proof.
  eexists. split; [ vm_compute; reflexivity | ].
  split; reflexivity.
Qed.

(** [range(0.0, 1.0, 0.1)], the ticks of band 2, has 11 values: the float
    0.1 is above one tenth and the exact quotient below 10, but the
    quotient of the floats rounds to 10. *)
Example range_tenths :
  exists l,
    range 0 1 (Float.round (1 # 10)) = Ok l /\ length l = 11%nat /\
    1 / Float.round (1 # 10) < 10.
Proof.
  eexists. split; [ vm_compute; reflexivity | ].
  split; reflexivity.
Qed.

(** The example of the specification: [range(0.0, 1.0, 0.3)] has 4 values
    and ends at three steps, below 1.0. *)
Example range_stops_short :
  exists l,
    range 0 1 (Float.round (3 # 10)) = Ok l /\ length l = 4%nat /\
    last l 0 == 3 * Float.round (3 # 10) /\ last l 0 < 1.
Proof.
  eexists. split; [ vm_compute; reflexivity | ].
  repeat split.
Qed.

(** [range(0.0, 0.35, 0.01)] has 36 values and ends above [stop], and
    [range(0.3, 0.03, -0.01)] has 28 values and ends below [stop]: the
    float 0.01 is above one hundredth.  [range(0.3, 0.0, -0.1)] has 3
    values. *)
Example range_passes_stop :
  (exists l,
     range 0 (Float.round (35 # 100)) (Float.round (1 # 100)) = Ok l /\
     length l = 36%nat /\ Float.round (35 # 100) < last l 0) /\
  (exists l,
     range (Float.round (3 # 10)) (Float.round (3 # 100))
           (Float.round (-1 # 100)) = Ok l /\
     length l = 28%nat /\ last l 0 < Float.round (3 # 100)) /\
  (exists l,
     range (Float.round (3 # 10)) 0 (Float.round (-1 # 10)) = Ok l /\
     length l = 3%nat).
Proof.
  split; [ | split ]; eexists; (split; [ vm_compute; reflexivity | ]);
    repeat split.
Qed.

(** A zero step raises, and a [stop] far enough below [start] asks
    [np.linspace] for a negative number of samples: so does
    [range(0.4, 0.3, 0.1)], where the quotient of the floats is just below
    -1, while [range(1.0, -1e-17, 1.0)], where it is -1, is empty. *)
Example range_raises :
  range 0 1 0 = Raise "ZeroDivisionError"%string /\
  range 0 (-5) 1 = Raise "ValueError"%string /\
  range 0 (-1) 1 = Ok [] /\
  range (Float.round (4 # 10)) (Float.round (3 # 10)) (Float.round (1 # 10))
  = Raise "ValueError"%string /\
  range 1 (Float.round (-1 # 100000000000000000)) 1 = Ok [].
Proof.
  repeat split.
Qed.

(* ================================================================== *)
(** ** _colors_from_spec *)

Section ColorsFromSpec.

Context {M : mcolors}.

(** A segment gets exactly one colour per value. *)
Lemma colors_from_spec_length (spec : color_spec) (n : nat) (cols : list rgba) :
  _colors_from_spec spec n = Ok cols -> length cols = n.
Proof.
  destruct spec as [ names | cm ]; simpl.
  - destruct (length names =? 1)%nat.
    + intros H. bind_inv H as name0 H0. bind_inv H as c Hc.
      injection H as <-. apply repeat_length.
    + intros H. apply mapM_length in H. rewrite H. apply length_seq.
  - destruct (linspace_total 0 1 n) as (xs & -> & Hxs). simpl.
    intros H. injection H as <-. rewrite length_map. exact Hxs.
Qed.

(** C7.  A colour list with a single colour gives that colour, as RGBA,
    once per value: [_colors_from_spec] returns it repeated [n] times, and
    the loop of [creates_palette] appends to the accumulators the values of
    the segment and as many copies of the colour. *)
Theorem single_color_repeated (name : color) (c : rgba) (n : nat)
    (vals : list Q) (rest : list extra_arg) (acc : list Q * list rgba) :
  to_rgba name = Ok c ->
  _colors_from_spec (Colors [name]) n = Ok (repeat c n) /\
  accumulate_step acc (Pal (Colors [name]) vals rest)
  = Ok (fst acc ++ vals, snd acc ++ repeat c (length vals)).
Proof.
  intros Hc.
  assert (H : forall k, _colors_from_spec (Colors [name]) k = Ok (repeat c k)).
  { intros k. simpl. change (getitem [name] 0) with (Ok name). simpl.
    rewrite Hc. reflexivity. }
  split; [ apply H | ].
  unfold accumulate_step. rewrite H. reflexivity.
Qed.

End ColorsFromSpec.

Section Interpolation.

Context {M : mcolors}.

(** The position [t * (len(names) - 1)] lies within the index range. *)
Lemma interp_pos_bounds (L n i : nat) :
  (1 <= L)%nat -> (i < n)%nat ->
  let pos := interp_t n i * inject_Z (Z.of_nat L - 1) in
  0 <= pos /\ pos <= inject_Z (Z.of_nat L - 1).
Proof.
  intros HL Hi pos.
  assert (Hd : 0 < inject_Z (Z.max (Z.of_nat n - 1) 1)).
  { change 0 with (inject_Z 0). rewrite <- Zlt_Qlt. lia. }
  assert (Ht0 : 0 <= interp_t n i).
  { unfold interp_t. apply Qle_shift_div_l; [ exact Hd | ].
    rewrite Qmult_0_l. change 0 with (inject_Z 0). rewrite <- Zle_Qle. lia. }
  assert (Ht1 : interp_t n i <= 1).
  { unfold interp_t. apply Qle_shift_div_r; [ exact Hd | ].
    rewrite Qmult_1_l. rewrite <- Zle_Qle. lia. }
  assert (HL0 : 0 <= inject_Z (Z.of_nat L - 1)).
  { change 0 with (inject_Z 0). rewrite <- Zle_Qle. lia. }
  unfold pos. split.
  - apply Qmult_le_0_compat; assumption.
  - rewrite <- (Qmult_1_l (inject_Z (Z.of_nat L - 1))) at 2.
    apply Qmult_le_compat_r; assumption.
Qed.

(** Both indices of the floor/ceil pair are indices of the colour list, so
    the [min] of line 62 leaves the ceiling as it is. *)
Lemma interp_index_bounds (L n i : nat) :
  (1 <= L)%nat -> (i < n)%nat ->
  let pos := interp_t n i * inject_Z (Z.of_nat L - 1) in
  (0 <= Qfloor pos <= Z.of_nat L - 1)%Z /\
  (0 <= Qceiling pos <= Z.of_nat L - 1)%Z.
Proof.
  intros HL Hi pos.
  destruct (interp_pos_bounds L n i HL Hi) as [H0 H1]. fold pos in H0, H1.
  assert (F0 : (0 <= Qfloor pos)%Z).
  { change 0%Z with (Qfloor 0). apply Qfloor_resp_le. exact H0. }
  assert (C1 : (Qceiling pos <= Z.of_nat L - 1)%Z).
  { rewrite <- (Qceiling_Z (Z.of_nat L - 1)). apply Qceiling_resp_le.
    exact H1. }
  pose proof (Qle_floor_ceiling pos) as Hfc. rewrite <- Zle_Qle in Hfc. lia.
Qed.

(** One pass of the loop returns the blend of the two colours at the
    floor and the ceiling of the position. *)
Lemma interp_color_blend (names : list color) (cols : list rgba) (n i : nat) :
  mapM to_rgba names = Ok cols -> (1 <= length names)%nat -> (i < n)%nat ->
  let pos := interp_t n i * inject_Z (Z.of_nat (length names) - 1) in
  let frac := pos - inject_Z (Qfloor pos) in
  let black := RGBA 0 0 0 0 in
  interp_color names n i
  = Ok (rgba_add
          (rgba_scale (1 - frac) (nth (Z.to_nat (Qfloor pos)) cols black))
          (rgba_scale frac (nth (Z.to_nat (Qceiling pos)) cols black))).
Proof.
  intros Hcols HL Hi pos frac black.
  destruct (interp_index_bounds (length names) n i HL Hi) as [Hf Hc].
  fold pos in Hf, Hc.
  assert (Hget : forall z, (0 <= z <= Z.of_nat (length names) - 1)%Z ->
            bind (getitem names z) to_rgba = Ok (nth (Z.to_nat z) cols black)).
  { intros z Hz.
    destruct (nth_error names (Z.to_nat z)) as [x | ] eqn:Ex;
      [ | apply nth_error_None in Ex; lia ].
    destruct (mapM_nth_error _ _ _ _ _ Hcols Ex) as (y & Hy & Hy').
    rewrite <- (Z2Nat.id z) at 1 by lia.
    rewrite (getitem_nth_error _ _ _ Ex). simpl. rewrite Hy.
    rewrite (nth_error_nth _ _ _ Hy'). reflexivity. }
  unfold interp_color. cbv zeta. unfold np.floor, np.ceil. fold pos.
  rewrite Z.min_l by lia.
  pose proof (Hget (Qfloor pos) Hf) as G0.
  pose proof (Hget (Qceiling pos) Hc) as G1.
  destruct (getitem names (Qfloor pos)) as [x0 | ]; [ | discriminate ].
  simpl in G0. simpl. rewrite G0. simpl.
  destruct (getitem names (Qceiling pos)) as [x1 | ]; [ | discriminate ].
  simpl in G1. simpl. rewrite G1. reflexivity.
Qed.

(** C9.  A colour list of two or more colours over a single value: the
    guard [max(n - 1, 1)] is 1, so [t = 0] and no division by zero occurs,
    and the one resolved colour is the RGBA of the first colour of the
    list. *)
Theorem single_value_first_color (a b : color) (rest : list color) (c : rgba) :
  to_rgba a = Ok c ->
  Z.max (Z.of_nat 1 - 1) 1 = 1%Z /\
  interp_t 1 0 == 0 /\
  exists c', _colors_from_spec (Colors (a :: b :: rest)) 1 = Ok [c']
             /\ rgba_eq c' c.
Proof.
  intros Hc. split; [ reflexivity | ]. split; [ reflexivity | ].
  set (names := a :: b :: rest).
  assert (HL : (Z.of_nat (length names) - 1 >= 1)%Z)
    by (unfold names; simpl length; lia).
  change (_colors_from_spec (Colors names) 1)
    with (bind (interp_color names 1 0)
               (fun y => bind (Ok []) (fun ys => Ok (y :: ys)))).
  unfold interp_color. cbv zeta.
  change (interp_t 1 0 * inject_Z (Z.of_nat (length names) - 1)) with 0.
  change (np.floor 0) with 0%Z. change (np.ceil 0) with 0%Z.
  rewrite Z.min_l by lia.
  change (getitem names 0) with (Ok a). simpl. rewrite Hc. simpl.
  eexists. split; [ reflexivity | ].
  unfold rgba_eq; simpl. repeat split; ring.
Qed.

(** C8.  A colour list of two or more colours over [n >= 2] values: the
    code returns, for every [i], the interpolation the specification
    describes ([spec_interp]: position [i/(n-1)] on the index range, floor
    and ceiling indices, fractional blend).  With two colours and an odd
    number [n = 2m + 1] of values, the colour in the middle (index [m]) is
    the componentwise average of the two. *)
Theorem colors_interpolated (names : list color) (cols : list rgba) (n : nat) :
  mapM to_rgba names = Ok cols ->
  (2 <= length names)%nat -> (2 <= n)%nat ->
  _colors_from_spec (Colors names) n = Ok (map (spec_interp cols n) (seq 0 n))
  /\ (forall cA cB m, cols = [cA; cB] -> n = (2 * m + 1)%nat ->
        exists c, nth_error (map (spec_interp cols n) (seq 0 n)) m = Some c
                  /\ rgba_eq c (rgba_mean cA cB)).
Proof.
  intros Hcols HL Hn. split.
  - simpl. destruct (Nat.eqb_spec (length names) 1) as [E | _]; [ lia | ].
    apply mapM_Ok_map. intros i Hi. apply in_seq in Hi.
    rewrite (interp_color_blend names cols n i Hcols) by lia.
    unfold spec_interp, interp_t. cbv zeta.
    rewrite (mapM_length _ _ _ Hcols).
    rewrite Z.max_l by lia. reflexivity.
  - intros cA cB m -> Hm.
    rewrite nth_error_map, nth_error_seq.
    destruct (Nat.ltb_spec m n) as [_ | Hmn]; [ | lia ].
    simpl option_map. eexists. split; [ reflexivity | ].
    unfold spec_interp. cbv zeta.
    match goal with |- context [Qfloor ?p] => set (pos := p) end.
    assert (Hpos : pos == 1 # 2).
    { unfold pos. simpl length.
      replace (Z.of_nat n - 1)%Z with (2 * Z.of_nat m)%Z by lia.
      rewrite inject_Z_mult. change (inject_Z (Z.of_nat 2 - 1)) with 1.
      change (inject_Z 2) with 2. field.
      apply inject_Z_pos_neq0. lia. }
    assert (Hf : Qfloor pos = 0%Z) by (rewrite Hpos; reflexivity).
    assert (Hc : Qceiling pos = 1%Z) by (rewrite Hpos; reflexivity).
    rewrite Hf, Hc. simpl nth.
    unfold rgba_eq, rgba_mean, rgba_add, rgba_scale; simpl.
    repeat split; rewrite Hpos; field.
Qed.

End Interpolation.

(* ================================================================== *)
(** ** np.argsort, np.sort, indexing by an index array *)

Lemma insert_key_perm (x : Q * nat) (l : list (Q * nat)) :
  Permutation (np.insert_key x l) (x :: l).
Proof.
  induction l as [ | y l IH ]; simpl; [ reflexivity | ].
  destruct (Qle_bool (fst x) (fst y)); [ reflexivity | ].
  rewrite IH. apply perm_swap.
Qed.

Lemma sort_keys_perm (l : list (Q * nat)) : Permutation (np.sort_keys l) l.
Proof.
  induction l as [ | x l IH ]; simpl; [ reflexivity | ].
  rewrite insert_key_perm. constructor. exact IH.
Qed.

Lemma insert_key_sorted (x : Q * nat) (l : list (Q * nat)) :
  StronglySorted np.key_le l -> StronglySorted np.key_le (np.insert_key x l).
Proof.
  induction l as [ | y l IH ]; simpl; intros Hs.
  - constructor; constructor.
  - destruct (Qle_bool (fst x) (fst y)) eqn:E.
    + apply Qle_bool_iff in E. constructor; [ exact Hs | ].
      constructor; [ exact E | ].
      apply StronglySorted_inv in Hs. destruct Hs as [_ Hall].
      eapply Forall_impl; [ | exact Hall ].
      intros z Hz. unfold np.key_le in *. eapply Qle_trans; eassumption.
    + assert (Hyx : fst y <= fst x).
      { destruct (Qlt_le_dec (fst y) (fst x)) as [Hlt | Hle].
        - apply Qlt_le_weak. exact Hlt.
        - apply Qle_bool_iff in Hle. congruence. }
      apply StronglySorted_inv in Hs. destruct Hs as [Hs Hall].
      constructor; [ apply IH; exact Hs | ].
      apply (Permutation_Forall (Permutation_sym (insert_key_perm x l))).
      constructor; assumption.
Qed.

Lemma sort_keys_sorted (l : list (Q * nat)) :
  StronglySorted np.key_le (np.sort_keys l).
Proof.
  induction l as [ | x l IH ]; simpl; [ constructor | ].
  apply insert_key_sorted. exact IH.
Qed.

Lemma StronglySorted_map_fst (l : list (Q * nat)) :
  StronglySorted np.key_le l -> StronglySorted Qle (map fst l).
Proof.
  induction 1 as [ | x l Hs IH Hall ]; simpl; constructor; [ exact IH | ].
  apply Forall_map. exact Hall.
Qed.

(** [np.sort] returns the values of the array in ascending order. *)
Lemma sort_sorted (a : list Q) : StronglySorted Qle (np.sort a).
Proof.
  apply StronglySorted_map_fst, sort_keys_sorted.
Qed.

Lemma indexed_fst (a : list Q) : map fst (np.indexed a) = a.
Proof.
  unfold np.indexed. generalize 0%nat.
  induction a as [ | x a IH ]; intros k; simpl; [ reflexivity | ].
  rewrite IH. reflexivity.
Qed.

Lemma sort_perm (a : list Q) : Permutation (np.sort a) a.
Proof.
  unfold np.sort. rewrite <- (indexed_fst a) at 2.
  apply Permutation_map, sort_keys_perm.
Qed.

Lemma sort_length (a : list Q) : length (np.sort a) = length a.
Proof.
  apply Permutation_length, sort_perm.
Qed.

Lemma argsort_length (a : list Q) : length (np.argsort a) = length a.
Proof.
  unfold np.argsort. rewrite length_map.
  rewrite (Permutation_length (sort_keys_perm _)).
  unfold np.indexed. rewrite length_combine, length_seq. lia.
Qed.

(** Every (value, index) pair of [indexed a] is an entry of [a]. *)
Lemma indexed_entry (a : list Q) (v : Q) (i : nat) :
  In (v, i) (np.indexed a) -> nth_error a i = Some v.
Proof.
  unfold np.indexed.
  assert (G : forall k, In (v, i) (combine a (seq k (length a))) ->
                (k <= i)%nat /\ nth_error a (i - k) = Some v).
  { induction a as [ | x a IH ]; intros k; simpl; [ tauto | ].
    intros [E | Hin].
    - injection E as -> ->. rewrite Nat.sub_diag. split; [ lia | reflexivity ].
    - destruct (IH (S k) Hin) as [Hk Hnth]. split; [ lia | ].
      replace (i - k)%nat with (S (i - S k)) by lia. exact Hnth. }
  intros Hin. destruct (G 0%nat Hin) as [_ H].
  rewrite Nat.sub_0_r in H. exact H.
Qed.

(** [a[np.argsort(a)]] is [np.sort(a)]. *)
Lemma take_argsort (a : list Q) : np.take a (np.argsort a) = Ok (np.sort a).
Proof.
  unfold np.take, np.argsort, np.sort.
  assert (G : forall ps : list (Q * nat),
            (forall p, In p ps -> In p (np.indexed a)) ->
            mapM (fun i => getitem a (Z.of_nat i)) (map snd ps)
            = Ok (map fst ps)).
  { induction ps as [ | [v i] ps IH ]; intros Hin; simpl; [ reflexivity | ].
    rewrite (getitem_nth_error a i v)
      by (apply indexed_entry, Hin; left; reflexivity).
    simpl. rewrite IH by (intros p Hp; apply Hin; right; exact Hp).
    reflexivity. }
  apply G. intros p Hp.
  apply (Permutation_in _ (sort_keys_perm (np.indexed a))). exact Hp.
Qed.

(** The indices of [np.argsort(a)] are below [len(a)]. *)
Lemma argsort_bound (a : list Q) (i : nat) :
  In i (np.argsort a) -> (i < length a)%nat.
Proof.
  unfold np.argsort. intros Hin. apply in_map_iff in Hin.
  destruct Hin as ([v j] & <- & Hp). simpl.
  apply (Permutation_in _ (sort_keys_perm (np.indexed a))) in Hp.
  apply indexed_entry in Hp. apply nth_error_Some. congruence.
Qed.

(** Indexing a list with indices that are all in range returns as many
    items as there are indices. *)
Lemma take_in_range {A : Type} (l : list A) (order : list nat) :
  (forall i, In i order -> (i < length l)%nat) ->
  exists l', np.take l order = Ok l' /\ length l' = length order.
Proof.
  unfold np.take. induction order as [ | i order IH ]; intros H; simpl.
  - exists []. split; reflexivity.
  - destruct (getitem_in_range l i) as (x & ->);
      [ apply H; left; reflexivity | ].
    destruct IH as (l' & -> & Hlen);
      [ intros j Hj; apply H; right; exact Hj | ].
    simpl. exists (x :: l'). split; [ reflexivity | ].
    simpl. rewrite Hlen. reflexivity.
Qed.

(** What indexing by an index array returns, when it returns. *)
Lemma take_Ok_map {A : Type} (l : list A) (d : A) (order : list nat) :
  forall l', np.take l order = Ok l' -> l' = map (fun i => nth i l d) order.
Proof.
  unfold np.take. induction order as [ | i order IH ]; intros l' H; simpl in H.
  - injection H as <-. reflexivity.
  - bind_inv H as x Hx. bind_inv H as xs Hxs. injection H as <-.
    simpl. f_equal; [ | apply IH; exact Hxs ].
    unfold getitem in Hx. cbv zeta in Hx.
    destruct (Z.ltb_spec (Z.of_nat i) 0) as [Hn | _]; [ lia | ].
    destruct (_ || _)%bool; [ discriminate | ].
    rewrite Nat2Z.id in Hx.
    destruct (nth_error l i) as [y | ] eqn:E; [ | discriminate ].
    injection Hx as <-. symmetry. apply nth_error_nth. exact E.
Qed.

(** Pairing every value with the colour at its index gives back the two
    arrays side by side. *)
Lemma indexed_colors {A : Type} (d : A) (a : list Q) :
  forall (cols : list A) (k : nat),
    length cols = (k + length a)%nat ->
    map (fun p => (fst p, nth (snd p) cols d)) (combine a (seq k (length a)))
    = combine a (skipn k cols).
Proof.
  induction a as [ | x a IH ]; intros cols k Hlen; simpl; [ reflexivity | ].
  simpl in Hlen.
  destruct (skipn k cols) as [ | c rest ] eqn:E.
  - apply (f_equal (@length A)) in E. rewrite length_skipn in E.
    simpl in E. lia.
  - assert (Hc : nth k cols d = c).
    { rewrite <- (firstn_skipn k cols) at 1.
      rewrite app_nth2 by (rewrite length_firstn; lia).
      rewrite length_firstn, Nat.min_l, Nat.sub_diag, E by lia.
      reflexivity. }
    assert (Hrest : skipn (S k) cols = rest).
    { replace (S k) with (1 + k)%nat by lia.
      rewrite <- skipn_skipn, E. reflexivity. }
    rewrite Hc, (IH cols (S k)), Hrest by lia. reflexivity.
Qed.

(* ================================================================== *)
(** ** np.unique *)

Lemma drop_repeats_sorted (aux : list Q) :
  forall prev, StronglySorted Qle (prev :: aux) ->
    StronglySorted Qlt (prev :: np.drop_repeats prev aux).
Proof.
  induction aux as [ | x aux IH ]; intros prev Hs; simpl.
  - constructor; constructor.
  - apply StronglySorted_inv in Hs. destruct Hs as [Hs Hall].
    assert (Hpx : prev <= x) by (inversion Hall; assumption).
    specialize (IH x Hs). apply StronglySorted_inv in IH.
    destruct IH as [IHs IHall].
    destruct (Qeq_bool x prev) eqn:E.
    + apply Qeq_bool_eq in E. constructor; [ exact IHs | ].
      eapply Forall_impl; [ | exact IHall ].
      intros z Hz. rewrite <- E. exact Hz.
    + assert (Hlt : prev < x).
      { apply Qle_lteq in Hpx. destruct Hpx as [Hlt | Heq]; [ exact Hlt | ].
        exfalso. apply Qeq_bool_neq in E. apply E. symmetry. exact Heq. }
      constructor.
      * constructor; assumption.
      * constructor; [ exact Hlt | ].
        eapply Forall_impl; [ | exact IHall ].
        intros z Hz. eapply Qlt_trans; eassumption.
Qed.

Lemma drop_repeats_members (aux : list Q) (y : Q) :
  forall prev, InA Qeq y (prev :: np.drop_repeats prev aux)
               <-> InA Qeq y (prev :: aux).
Proof.
  induction aux as [ | x aux IH ]; intros prev; simpl; [ tauto | ].
  specialize (IH x). rewrite !InA_cons in IH.
  destruct (Qeq_bool x prev) eqn:E.
  - apply Qeq_bool_eq in E. rewrite !InA_cons.
    split.
    + intros [H | H]; [ left; exact H | ].
      right. apply IH. right. exact H.
    + intros [H | [H | H]].
      * left; exact H.
      * left. rewrite H. exact E.
      * destruct (proj2 IH (or_intror H)) as [H' | H'].
        -- left. rewrite H'. exact E.
        -- right. exact H'.
  - rewrite !InA_cons. tauto.
Qed.

Lemma InA_Qeq_perm (l l' : list Q) (y : Q) :
  Permutation l l' -> InA Qeq y l -> InA Qeq y l'.
Proof.
  intros Hp H. apply InA_alt in H. destruct H as (z & Hz & Hin).
  apply InA_alt. exists z. split; [ exact Hz | ].
  apply (Permutation_in _ Hp). exact Hin.
Qed.

(** [np.unique(a)] is strictly ascending: sorted, without duplicates. *)
Lemma unique_sorted (a : list Q) : StronglySorted Qlt (np.unique a).
Proof.
  unfold np.unique. pose proof (sort_sorted a) as Hs.
  destruct (np.sort a) as [ | x aux ]; [ constructor | ].
  apply drop_repeats_sorted. exact Hs.
Qed.

(** [np.unique(a)] has the values of [a], and no other. *)
Lemma unique_members (a : list Q) (y : Q) :
  InA Qeq y (np.unique a) <-> InA Qeq y a.
Proof.
  unfold np.unique. pose proof (sort_perm a) as Hp.
  destruct (np.sort a) as [ | x aux ].
  - split; intros H.
    + inversion H.
    + apply (InA_Qeq_perm _ _ y (Permutation_sym Hp)) in H. exact H.
  - rewrite drop_repeats_members. split; intros H.
    + apply (InA_Qeq_perm _ _ y Hp). exact H.
    + apply (InA_Qeq_perm _ _ y (Permutation_sym Hp)). exact H.
Qed.

(** [np.unique] returns at most as many values as it is given. *)
Lemma drop_repeats_length (aux : list Q) :
  forall prev, (length (np.drop_repeats prev aux) <= length aux)%nat.
Proof.
  induction aux as [ | x aux IH ]; intros prev; simpl; [ lia | ].
  specialize (IH x). destruct (Qeq_bool x prev); simpl; lia.
Qed.

Lemma unique_length (a : list Q) : (length (np.unique a) <= length a)%nat.
Proof.
  unfold np.unique. rewrite <- (sort_length a).
  destruct (np.sort a) as [ | x aux ]; simpl; [ lia | ].
  pose proof (drop_repeats_length aux x). lia.
Qed.

(** Values that are all equal have a single boundary. *)
Lemma drop_repeats_all_equal (aux : list Q) :
  forall prev, (forall z, In z aux -> z == prev) ->
    np.drop_repeats prev aux = [].
Proof.
  induction aux as [ | x aux IH ]; intros prev H; simpl; [ reflexivity | ].
  assert (Hx : x == prev) by (apply H; left; reflexivity).
  rewrite (proj2 (Qeq_bool_iff x prev) Hx).
  apply IH. intros z Hz. rewrite Hx. apply H. right. exact Hz.
Qed.

(** ** a.min() and a.max() on equal values *)

(** The minimum and the maximum of values that are all equal. *)
Lemma fold_min_all_equal (s : list Q) :
  forall x, (forall z, In z s -> z == x) -> fold_left Qmin s x == x.
Proof.
  induction s as [ | y s IH ]; intros x H; simpl; [ reflexivity | ].
  assert (Hy : y == x) by (apply H; left; reflexivity).
  assert (Hm : Qmin x y == x) by (apply Q.min_l; rewrite Hy; apply Qle_refl).
  rewrite IH; [ exact Hm | ].
  intros z Hz. rewrite Hm. apply H. right. exact Hz.
Qed.

Lemma fold_max_all_equal (s : list Q) :
  forall x, (forall z, In z s -> z == x) -> fold_left Qmax s x == x.
Proof.
  induction s as [ | y s IH ]; intros x H; simpl; [ reflexivity | ].
  assert (Hy : y == x) by (apply H; left; reflexivity).
  assert (Hm : Qmax x y == x) by (apply Q.max_l; rewrite Hy; apply Qle_refl).
  rewrite IH; [ exact Hm | ].
  intros z Hz. rewrite Hm. apply H. right. exact Hz.
Qed.

(* ================================================================== *)
(** ** Normalization to [0, 1] and the two pins *)

Lemma StronglySorted_map_mono (f : Q -> Q) (l : list Q) :
  (forall a b, a <= b -> f a <= f b) ->
  StronglySorted Qle l -> StronglySorted Qle (map f l).
Proof.
  intros Hf. induction 1 as [ | x l Hs IH Hall ]; simpl; constructor.
  - exact IH.
  - apply Forall_map. eapply Forall_impl; [ | exact Hall ].
    intros z Hz. apply Hf. exact Hz.
Qed.

Lemma clip_unit (v : Q) : 0 <= Qmin (Qmax v 0) 1 /\ Qmin (Qmax v 0) 1 <= 1.
Proof.
  split.
  - apply Q.min_glb; [ apply Q.le_max_r | discriminate ].
  - apply Q.le_min_r.
Qed.

Lemma scale_clip_mono (vmin denom a b : Q) :
  0 < denom -> a <= b ->
  Qmin (Qmax ((a - vmin) / denom) 0) 1 <= Qmin (Qmax ((b - vmin) / denom) 0) 1.
Proof.
  intros Hd Hab. apply Q.min_le_compat_r, Q.max_le_compat_r.
  unfold Qdiv. apply Qmult_le_compat_r.
  - lra.
  - apply Qinv_le_0_compat, Qlt_le_weak. exact Hd.
Qed.

(** Replacing the last value of an ascending list of values at most 1 by
    1 keeps it ascending. *)
Lemma sorted_pin_last (l : list Q) (y : Q) :
  StronglySorted Qle (l ++ [y]) -> Forall (fun p => p <= 1) l ->
  StronglySorted Qle (l ++ [1]).
Proof.
  induction l as [ | x l IH ]; simpl; intros Hs Hall.
  - constructor; constructor.
  - apply StronglySorted_inv in Hs. destruct Hs as [Hs Hx].
    apply Forall_cons_iff in Hall. destruct Hall as [Hx1 Hall].
    constructor; [ apply IH; assumption | ].
    apply Forall_app in Hx. destruct Hx as [Hxl _].
    apply Forall_app. split; [ exact Hxl | ].
    constructor; [ exact Hx1 | constructor ].
Qed.

(** The two assignments [vals_norm[0] = 0.0; vals_norm[-1] = 1.0] on a
    non-empty array: the last value becomes 1 and, when there are two or
    more values, the first becomes 0; an ascending array of values in
    [0, 1] stays ascending. *)
Lemma pin_ends (p : list Q) :
  p <> [] ->
  exists p',
    bind (setitem p 0 0) (fun q => setitem q (-1) 1) = Ok p' /\
    length p' = length p /\
    nth_error p' (length p - 1) = Some 1 /\
    ((2 <= length p)%nat -> nth_error p' 0 = Some 0) /\
    (Forall (fun v => 0 <= v /\ v <= 1) p -> StronglySorted Qle p ->
     StronglySorted Qle p').
Proof.
  intros Hp. destruct p as [ | x l ]; [ congruence | ].
  rewrite setitem_first. simpl bind.
  destruct (@exists_last _ (0 :: l)) as (l' & y & E); [ discriminate | ].
  rewrite E, setitem_last. exists (l' ++ [1]).
  assert (Hlen : length (l' ++ [1]) = length (x :: l)).
  { apply (f_equal (@length Q)) in E. rewrite length_app in *. simpl in *.
    lia. }
  split; [ reflexivity | ]. split; [ exact Hlen | ].
  split.
  { rewrite <- Hlen, length_app. simpl length.
    replace (length l' + 1 - 1)%nat with (length l') by lia.
    rewrite nth_error_app2, Nat.sub_diag by lia. reflexivity. }
  split.
  - intros H2. destruct l' as [ | z l' ].
    + simpl in Hlen, H2. lia.
    + simpl in E. injection E as <- _. reflexivity.
  - intros Hall Hs. destruct l' as [ | z l' ].
    + constructor; constructor.
    + simpl in E. injection E as <- El. subst l.
      apply Forall_cons_iff in Hall. destruct Hall as [_ Hall].
      apply StronglySorted_inv in Hs. destruct Hs as [Hs _].
      apply Forall_app in Hall. destruct Hall as [Hl' _].
      simpl. constructor.
      * apply (sorted_pin_last l' y Hs).
        eapply Forall_impl; [ | exact Hl' ]. intros v [_ Hv]. exact Hv.
      * apply Forall_app. split.
        -- eapply Forall_impl; [ | exact Hl' ]. intros v [Hv _]. exact Hv.
        -- constructor; [ discriminate | constructor ].
Qed.

(* ================================================================== *)
(** ** creates_palette *)

Section CreatesPalette.

Context {M : mcolors}.

(** The loop leaves the accumulators alone on a segment of fewer than two
    items. *)
Lemma accumulate_step_short (acc : list Q * list rgba) (pal : paleta) :
  (len pal < 2)%nat -> accumulate_step acc pal = Ok acc.
Proof.
  destruct pal as [ | x | spec vals rest ]; simpl; intros H;
    [ reflexivity | reflexivity | lia ].
Qed.

Lemma foldM_filter_well_formed (paletas : list paleta) :
  forall acc, foldM accumulate_step paletas acc
              = foldM accumulate_step (filter well_formed paletas) acc.
Proof.
  induction paletas as [ | pal paletas IH ]; intros acc; [ reflexivity | ].
  simpl filter. unfold well_formed at 1.
  destruct (Nat.leb_spec 2 (len pal)) as [H2 | H2].
  - simpl. destruct (accumulate_step acc pal) as [acc' | e]; simpl;
      [ apply IH | reflexivity ].
  - simpl. rewrite accumulate_step_short by exact H2. simpl. apply IH.
Qed.

(** The two accumulators always have the same length. *)
Lemma foldM_accumulate_lengths (paletas : list paleta) :
  forall acc r, length (fst acc) = length (snd acc) ->
    foldM accumulate_step paletas acc = Ok r ->
    length (fst r) = length (snd r).
Proof.
  induction paletas as [ | pal paletas IH ]; intros acc r Hacc H; simpl in H.
  - injection H as <-. exact Hacc.
  - bind_inv H as acc' Hstep.
    apply (IH acc' r); [ | exact H ].
    destruct pal as [ | x | spec vals rest ]; simpl in Hstep;
      try (injection Hstep as <-; exact Hacc).
    bind_inv Hstep as cols_seg Hc.
    injection Hstep as <-. simpl. rewrite !length_app, Hacc.
    rewrite (colors_from_spec_length _ _ _ Hc). reflexivity.
Qed.

Lemma accumulate_lengths (paletas : list paleta) (vals : list Q)
    (cols : list rgba) :
  accumulate paletas = Ok (vals, cols) -> length vals = length cols.
Proof.
  intros H.
  apply (foldM_accumulate_lengths paletas ([], []) (vals, cols) eq_refl H).
Qed.

Lemma map_fst_combine {A B : Type} (l : list A) (l' : list B) :
  length l = length l' -> map fst (combine l l') = l.
Proof.
  revert l'. induction l as [ | x l IH ]; intros [ | y l' ] H; simpl in *;
    try reflexivity; try discriminate.
  rewrite IH by lia. reflexivity.
Qed.

Lemma map_snd_combine {A B : Type} (l : list A) (l' : list B) :
  length l = length l' -> map snd (combine l l') = l'.
Proof.
  revert l'. induction l as [ | x l IH ]; intros [ | y l' ] H; simpl in *;
    try reflexivity; try discriminate.
  rewrite IH by lia. reflexivity.
Qed.

(** The sorted values that [normalize] returns are [np.sort] of the
    accumulated ones. *)
Lemma normalize_sorted_values (vals : list Q) (cols : list rgba)
    (r : list Q * list (Q * rgba)) :
  normalize vals cols = Ok r -> fst r = np.sort vals.
Proof.
  unfold normalize. rewrite take_argsort. simpl bind. intros H.
  repeat (apply bind_Ok_inv in H; destruct H as (? & _ & H)).
  injection H as <-. reflexivity.
Qed.

(** The denominator of the normalization is positive. *)
Lemma denominator_pos (vmin vmax : Q) : 0 < denominator vmin vmax.
Proof.
  unfold denominator. destruct (Qlt_le_dec vmin vmax) as [Hlt | _];
    [ lra | reflexivity ].
Qed.

(** On non-empty accumulators of equal length the normalization raises
    nothing.  The positions of the colour list are ascending, the last is
    1 and, with two or more values, the first is 0. *)
Lemma normalize_spec (vals : list Q) (cols : list rgba) :
  vals <> [] -> length vals = length cols ->
  exists cl,
    normalize vals cols = Ok (np.sort vals, cl) /\
    length cl = length vals /\
    nth_error (map fst cl) (length cl - 1) = Some 1 /\
    ((2 <= length vals)%nat -> nth_error (map fst cl) 0 = Some 0) /\
    StronglySorted Qle (map fst cl).
Proof.
  intros Hne Hlen. unfold normalize. rewrite take_argsort. simpl bind.
  destruct (take_in_range cols (np.argsort vals)) as (cols' & -> & Hc').
  { intros i Hi. rewrite <- Hlen. apply argsort_bound. exact Hi. }
  rewrite argsort_length in Hc'. simpl bind.
  pose proof (sort_sorted vals) as Hs. pose proof (sort_length vals) as Hsl.
  destruct (np.sort vals) as [ | x s ] eqn:Es.
  { destruct vals; [ congruence | discriminate ]. }
  unfold np.amin, np.amax. cbn [bind].
  set (vmin := fold_left Qmin s x). set (vmax := fold_left Qmax s x).
  set (denom := denominator vmin vmax).
  assert (Hd : 0 < denom) by apply denominator_pos.
  set (p := np.clip (map (fun v => (v - vmin) / denom) (x :: s)) 0 1).
  assert (Hpl : length p = length vals).
  { unfold p, np.clip. rewrite !length_map. exact Hsl. }
  destruct (pin_ends p) as (p' & Hp' & Hl' & Hlast & Hfirst & Hsorted).
  { intros E. rewrite E in Hpl. simpl in Hpl. destruct vals;
      [ congruence | discriminate ]. }
  bind_inv Hp' as q Hq. rename Hp' into Hq'.
  fold p. rewrite Hq. cbn [bind]. rewrite Hq'. cbn [bind].
  eexists. split; [ reflexivity | ].
  assert (Hcl : length (combine p' cols') = length vals)
    by (rewrite length_combine; lia).
  rewrite map_fst_combine by lia. rewrite Hcl.
  split; [ reflexivity | ]. split; [ rewrite <- Hpl; exact Hlast | ].
  split; [ intros H2; apply Hfirst; lia | ].
  apply Hsorted.
  - unfold p, np.clip. apply Forall_map, Forall_map.
    apply Forall_forall. intros v _. apply clip_unit.
  - unfold p, np.clip. rewrite map_map.
    apply (StronglySorted_map_mono
             (fun v => Qmin (Qmax ((v - vmin) / denom) 0) 1)); [ | exact Hs ].
    intros a b Hab. apply scale_clip_mono; assumption.
Qed.

(** The two pins in general.  Whenever the segments accumulate at least
    one value, the colour list handed to [from_list] has one control point
    per value, its positions are in ascending order, and the position of
    the last is exactly 1; when there are two or more control points the
    position of the first is exactly 0. *)
Theorem stops_pinned (paletas : list paleta) (vals : list Q)
    (cols : list rgba) :
  accumulate paletas = Ok (vals, cols) -> vals <> [] ->
  exists cl,
    color_list_of paletas = Ok (np.sort vals, cl) /\
    length cl = length vals /\
    StronglySorted Qle (map fst cl) /\
    nth_error (map fst cl) (length cl - 1) = Some 1 /\
    ((2 <= length cl)%nat -> nth_error (map fst cl) 0 = Some 0).
Proof.
  intros Hacc Hne. unfold color_list_of. rewrite Hacc. simpl bind.
  destruct (normalize_spec vals cols Hne (accumulate_lengths _ _ _ Hacc))
    as (cl & Hn & Hlen & Hlast & Hfirst & Hs).
  exists cl. split; [ exact Hn | ]. split; [ exact Hlen | ].
  split; [ exact Hs | ]. split; [ exact Hlast | ].
  intros H2. apply Hfirst. lia.
Qed.

(** Sorting keeps every value with its colour: the sorted raw values,
    paired with the colours of the colour list, are a rearrangement of the
    accumulated (value, colour) pairs. *)
Theorem sorted_pairs_keep_colors (paletas : list paleta) (vals : list Q)
    (cols : list rgba) :
  accumulate paletas = Ok (vals, cols) -> vals <> [] ->
  exists cl,
    color_list_of paletas = Ok (np.sort vals, cl) /\
    Permutation (combine (np.sort vals) (map snd cl)) (combine vals cols).
Proof.
  intros Hacc Hne. pose proof (accumulate_lengths _ _ _ Hacc) as Hlen.
  destruct (normalize_spec vals cols Hne Hlen) as (cl & Hn & Hcl & _).
  exists cl. split; [ unfold color_list_of; rewrite Hacc; exact Hn | ].
  unfold normalize in Hn. rewrite take_argsort in Hn. cbn [bind] in Hn.
  bind_inv Hn as cols' Hcols'.
  bind_inv Hn as vmin Hmin. bind_inv Hn as vmax Hmax.
  bind_inv Hn as p0 Hp0. bind_inv Hn as p1 Hp1.
  injection Hn as <-.
  apply (take_Ok_map cols (RGBA 0 0 0 0)) in Hcols'.
  assert (Hl : length p1 = length cols').
  { rewrite length_combine in Hcl.
    assert (length cols' = length vals)
      by (rewrite Hcols', length_map; apply argsort_length).
    apply Nat.le_antisymm; [ | lia ].
    apply setitem_length in Hp1. apply setitem_length in Hp0.
    rewrite Hp1, Hp0. unfold np.clip. rewrite !length_map, sort_length. lia. }
  rewrite map_snd_combine by exact Hl.
  rewrite Hcols'. unfold np.sort, np.argsort.
  set (ps := np.sort_keys (np.indexed vals)).
  set (g := fun p : Q * nat => (fst p, nth (snd p) cols (RGBA 0 0 0 0))).
  assert (E : combine (map fst ps)
                (map (fun i => nth i cols (RGBA 0 0 0 0)) (map snd ps))
              = map g ps).
  { clear. induction ps as [ | q ps IH ]; simpl; [ reflexivity | ].
    rewrite IH. reflexivity. }
  rewrite E. unfold ps.
  rewrite (Permutation_map g (sort_keys_perm (np.indexed vals))).
  unfold g, np.indexed. rewrite (indexed_colors _ vals cols 0) by lia.
  reflexivity.
Qed.

(** C10.  When the segments accumulate exactly one value, the second pin
    overwrites the first: the one control point is at position 1. *)
Theorem single_stop_at_one (paletas : list paleta) (v : Q) (c : rgba) :
  accumulate paletas = Ok ([v], [c]) ->
  color_list_of paletas = Ok ([v], [(1, c)]).
Proof.
  intros Hacc. unfold color_list_of. rewrite Hacc. simpl bind.
  unfold normalize.
  change (np.argsort [v]) with [0%nat].
  change (np.take [v] [0%nat]) with (Ok [v]).
  change (np.take [c] [0%nat]) with (Ok [c]).
  simpl bind. unfold denominator. destruct (Qlt_le_dec v v); reflexivity.
Qed.

(** C1, as the code has it.  When every segment has fewer than two items
    the accumulators stay empty, and the call raises the ValueError of
    [all_vals.min()] on an empty array. *)
Theorem all_malformed_raises (paletas : list paleta) (extend : string) :
  Forall (fun pal => (len pal < 2)%nat) paletas ->
  accumulate paletas = Ok ([], []) /\
  creates_palette paletas extend = Raise "ValueError"%string.
Proof.
  intros Hall.
  assert (Hacc : accumulate paletas = Ok ([], [])).
  { unfold accumulate. generalize (@nil Q, @nil rgba).
    induction Hall as [ | pal paletas Hpal _ IH ]; intros acc; simpl;
      [ reflexivity | ].
    rewrite accumulate_step_short by exact Hpal. simpl. apply IH. }
  split; [ exact Hacc | ].
  unfold creates_palette, color_list_of. rewrite Hacc. reflexivity.
Qed.

(** C6.  A segment of fewer than two items changes nothing and raises
    nothing, so the accumulators, and with them the whole result, are those
    of the list with such segments removed. *)
Theorem malformed_segments_skipped (paletas : list paleta) (extend : string) :
  (forall pal acc, (len pal < 2)%nat -> accumulate_step acc pal = Ok acc) /\
  accumulate paletas = accumulate (filter well_formed paletas) /\
  creates_palette paletas extend
  = creates_palette (filter well_formed paletas) extend.
Proof.
  split; [ intros pal acc H; apply accumulate_step_short; exact H | ].
  assert (H : accumulate paletas = accumulate (filter well_formed paletas))
    by apply foldM_filter_well_formed.
  split; [ exact H | ].
  unfold creates_palette, color_list_of. rewrite H. reflexivity.
Qed.

(** C4.  For every segment list that accumulates at least one value, the
    boundaries are [np.unique] of the sorted raw accumulated values: they
    are in strictly ascending order (sorted, no value twice) and hold
    exactly the values accumulated.  The code raises nothing before it
    hands them to matplotlib's constructors, and whenever the call returns,
    [bounds] is this array and [ticks] equals it. *)
Theorem bounds_sorted_unique (paletas : list paleta) (extend : string)
    (vals : list Q) (cols : list rgba) :
  accumulate paletas = Ok (vals, cols) -> vals <> [] ->
  let b := np.unique (np.sort vals) in
  StronglySorted Qlt b /\
  (forall y, InA Qeq y b <-> InA Qeq y vals) /\
  (exists cl,
     creates_palette paletas extend
     = (cmap <- from_list "custom_ccp" cl ;;
        norm <- BoundaryNorm b (cmap_N cmap) extend ;;
        Ok (Palette cmap b norm b))) /\
  (forall r, creates_palette paletas extend = Ok r ->
     bounds r = b /\ ticks r = b).
Proof.
  intros Hacc Hne b.
  destruct (normalize_spec vals cols Hne (accumulate_lengths _ _ _ Hacc))
    as (cl & Hn & _).
  assert (Hrun : creates_palette paletas extend
                 = (cmap <- from_list "custom_ccp" cl ;;
                    norm <- BoundaryNorm b (cmap_N cmap) extend ;;
                    Ok (Palette cmap b norm b))).
  { unfold creates_palette, color_list_of. rewrite Hacc. cbn [bind fst snd].
    rewrite Hn. reflexivity. }
  split; [ apply unique_sorted | ]. split; [ | split ].
  - intros y. unfold b. rewrite unique_members. split; intros Hy.
    + apply (InA_Qeq_perm _ _ y (sort_perm vals)). exact Hy.
    + apply (InA_Qeq_perm _ _ y (Permutation_sym (sort_perm vals))).
      exact Hy.
  - exists cl. exact Hrun.
  - intros r Hr. rewrite Hrun in Hr.
    bind_inv Hr as cm Hcm. bind_inv Hr as nm Hnm.
    injection Hr as <-. split; reflexivity.
Qed.

End CreatesPalette.

(* ================================================================== *)
(** ** The module on matplotlib *)

Section OnMatplotlib.

#[local] Existing Instance Mpl.matplotlib.

(** C1 as stated fails: two segments, both too short, raise ValueError,
    which is not EmptyPaletteError. *)
Lemma all_malformed_counterexample :
  Forall (fun pal => (len pal < 2)%nat) [Pal0; Pal1 (ExtraValues [1])] /\
  creates_palette [Pal0; Pal1 (ExtraValues [1])] "both"
  = Raise "ValueError"%string /\
  "ValueError"%string <> "EmptyPaletteError"%string.
Proof.
  split; [ repeat constructor | ]. split; [ reflexivity | discriminate ].
Qed.

Lemma all_malformed_raises_witness :
  accumulate [Pal0; Pal1 (ExtraValues [1])] = Ok ([], []) /\
  creates_palette [Pal0; Pal1 (ExtraValues [1])] "both"
  = Raise "ValueError"%string.
Proof.
  apply (all_malformed_raises (M := Mpl.matplotlib)
           [Pal0; Pal1 (ExtraValues [1])] "both").
  repeat constructor.
Defined.

(** C3.  The claim fails on a single colour over a single value: the
    colour list handed to [from_list] has one control point, and its
    position, the first of the list, is 1 and not 0. *)
Theorem single_value_first_stop :
  accumulate one_value = Ok ([5], [RGBA 0 0 0 1]) /\
  exists cl,
    color_list_of one_value = Ok ([5], cl) /\
    length cl = 1%nat /\
    nth_error (map fst cl) 0 = Some 1 /\
    ~ 1 == 0.
Proof.
  split; [ reflexivity | ].
  exists [(1, RGBA 0 0 0 1)].
  split; [ reflexivity | ]. split; [ reflexivity | ].
  split; [ reflexivity | discriminate ].
Qed.

Lemma stops_pinned_witness :
  exists cl,
    color_list_of black_to_white = Ok (np.sort [0; 5; 10], cl) /\
    length cl = length [0; 5; 10] /\
    StronglySorted Qle (map fst cl) /\
    nth_error (map fst cl) (length cl - 1) = Some 1 /\
    ((2 <= length cl)%nat -> nth_error (map fst cl) 0 = Some 0).
Proof.
  eapply (stops_pinned (M := Mpl.matplotlib) black_to_white [0; 5; 10]).
  - vm_compute. reflexivity.
  - discriminate.
Defined.

Lemma sorted_pairs_keep_colors_witness :
  exists cl,
    color_list_of black_to_white = Ok (np.sort [0; 5; 10], cl) /\
    Permutation
      (combine (np.sort [0; 5; 10]) (map snd cl))
      (combine [0; 5; 10]
         (map (spec_interp [RGBA 0 0 0 1; RGBA 1 1 1 1] 3) (seq 0 3))).
Proof.
  apply (sorted_pairs_keep_colors (M := Mpl.matplotlib) black_to_white
           [0; 5; 10]).
  - reflexivity.
  - discriminate.
Defined.

(** On matplotlib, every palette that [creates_palette] returns has at
    least two control points, the first at exactly 0 and the last at
    exactly 1: [BoundaryNorm] has accepted the boundaries, so there are at
    least two distinct values. *)
Theorem returned_palette_pinned (paletas : list paleta) (extend : string)
    (r : palette) :
  creates_palette paletas extend = Ok r ->
  let ps := map fst (Mpl.cm_stops (cmap r)) in
  (2 <= length ps)%nat /\
  nth_error ps 0 = Some 0 /\
  nth_error ps (length ps - 1) = Some 1 /\
  StronglySorted Qle ps.
Proof.
  unfold creates_palette, color_list_of. intros H.
  bind_inv H as stops Hstops. bind_inv Hstops as [vals cols] Hacc.
  rename Hstops into Hn. cbn [fst snd] in Hn.
  assert (Hne : vals <> []).
  { intros ->. discriminate Hn. }
  destruct (normalize_spec vals cols Hne (accumulate_lengths _ _ _ Hacc))
    as (cl & Hn' & Hlen & Hlast & Hfirst & Hs).
  rewrite Hn' in Hn. injection Hn as <-. cbn [fst snd] in H.
  change (@from_list Mpl.matplotlib) with Mpl.from_list in H.
  change (@BoundaryNorm Mpl.matplotlib) with Mpl.BoundaryNorm in H.
  bind_inv H as cm Hcm. bind_inv H as nm Hnm.
  injection H as <-. cbn [cmap].
  unfold Mpl.from_list in Hcm. destruct cl as [ | s cl ]; [ discriminate | ].
  injection Hcm as <-. cbn [Mpl.cm_stops]. cbv zeta.
  assert (H2 : (2 <= length vals)%nat).
  { pose proof (unique_length (np.sort vals)) as Hu.
    rewrite sort_length in Hu.
    unfold Mpl.BoundaryNorm in Hnm.
    destruct (np.unique (np.sort vals)) as [ | b bs ]; [ discriminate | ].
    destruct (Z.ltb_spec (Z.of_nat (length (b :: bs))) 2) as [Hlt | Hge];
      [ discriminate | ].
    lia. }
  rewrite length_map. rewrite Hlen.
  split; [ exact H2 | ]. split; [ apply Hfirst; exact H2 | ].
  split; [ rewrite <- Hlen; exact Hlast | exact Hs ].
Qed.

Lemma returned_palette_pinned_witness :
  exists r,
    creates_palette black_to_white "both" = Ok r /\
    let ps := map fst (Mpl.cm_stops (cmap r)) in
    (2 <= length ps)%nat /\
    nth_error ps 0 = Some 0 /\
    nth_error ps (length ps - 1) = Some 1 /\
    StronglySorted Qle ps.
Proof.
  eexists. split.
  - vm_compute. reflexivity.
  - apply (returned_palette_pinned black_to_white "both"). vm_compute.
    reflexivity.
Defined.

Lemma bounds_sorted_unique_witness :
  let b := np.unique (np.sort [0; 5; 10]) in
  StronglySorted Qlt b /\
  (forall y, InA Qeq y b <-> InA Qeq y [0; 5; 10]) /\
  (exists cl,
     creates_palette black_to_white "both"
     = (cmap <- from_list "custom_ccp" cl ;;
        norm <- BoundaryNorm b (cmap_N cmap) "both" ;;
        Ok (Palette cmap b norm b))) /\
  (forall r, creates_palette black_to_white "both" = Ok r ->
     bounds r = b /\ ticks r = b).
Proof.
  eapply (bounds_sorted_unique (M := Mpl.matplotlib) black_to_white "both"
            [0; 5; 10]).
  - vm_compute. reflexivity.
  - discriminate.
Defined.

(** The example of the specification returns the boundaries 0, 5, 10, with
    black at position 0, grey half-way and white at position 1. *)
Example black_to_white_palette :
  exists r,
    creates_palette black_to_white "both" = Ok r /\
    bounds r = [0; 5; 10] /\ ticks r = [0; 5; 10] /\
    Forall2 Qeq (map fst (Mpl.cm_stops (cmap r))) [0; 1 # 2; 1] /\
    Forall2 rgba_eq (map snd (Mpl.cm_stops (cmap r)))
            [RGBA 0 0 0 1; RGBA (1 # 2) (1 # 2) (1 # 2) 1; RGBA 1 1 1 1].
Proof.
  eexists. split; [ vm_compute; reflexivity | ].
  split; [ reflexivity | ]. split; [ reflexivity | ].
  split; repeat constructor.
Qed.

(** C5.  When all accumulated values are equal, [vmin] and [vmax] are
    equal, the denominator is taken as 1 and the normalization raises
    nothing: the colour list is computed.  The call as a whole still
    raises: the values have a single boundary, and [BoundaryNorm] raises
    ValueError on fewer than two. *)
Theorem degenerate_range_raises (paletas : list paleta) (vals : list Q)
    (cols : list rgba) (extend : string) :
  accumulate paletas = Ok (vals, cols) -> vals <> [] ->
  (forall x y, In x vals -> In y vals -> x == y) ->
  (exists vmin vmax,
     np.amin (np.sort vals) = Ok vmin /\ np.amax (np.sort vals) = Ok vmax /\
     vmin == vmax /\ denominator vmin vmax = 1) /\
  (exists cl, color_list_of paletas = Ok (np.sort vals, cl)) /\
  creates_palette paletas extend = Raise "ValueError"%string.
Proof.
  intros Hacc Hne Heq.
  pose proof (sort_perm vals) as Hp'.
  assert (Heq' : forall x y, In x (np.sort vals) -> In y (np.sort vals) ->
                   x == y).
  { intros x y Hx Hy. apply Heq; apply (Permutation_in _ Hp'); assumption. }
  split.
  { destruct (np.sort vals) as [ | x s ] eqn:Es.
    - apply Permutation_nil in Hp'. congruence.
    - exists (fold_left Qmin s x), (fold_left Qmax s x).
      assert (Hs : forall z, In z s -> z == x).
      { intros z Hz. apply Heq'; [ right; exact Hz | left; reflexivity ]. }
      pose proof (fold_min_all_equal s x Hs) as Hmin.
      pose proof (fold_max_all_equal s x Hs) as Hmax.
      split; [ reflexivity | ]. split; [ reflexivity | ].
      split; [ rewrite Hmin, Hmax; reflexivity | ].
      unfold denominator.
      destruct (Qlt_le_dec _ _) as [Hlt | _]; [ | reflexivity ].
      rewrite Hmin, Hmax in Hlt. exfalso. exact (Qlt_irrefl x Hlt). }
  destruct (normalize_spec vals cols Hne (accumulate_lengths _ _ _ Hacc))
    as (cl & Hn & Hlen & _).
  assert (Hcl : color_list_of paletas = Ok (np.sort vals, cl)).
  { unfold color_list_of. rewrite Hacc. exact Hn. }
  split; [ exists cl; exact Hcl | ].
  unfold creates_palette. rewrite Hcl. cbn [bind fst snd].
  change (@from_list Mpl.matplotlib) with Mpl.from_list.
  change (@BoundaryNorm Mpl.matplotlib) with Mpl.BoundaryNorm.
  destruct (Mpl.from_list "custom_ccp" cl) as [cm | e] eqn:Ecm.
  - cbn [bind]. unfold np.unique.
    pose proof (sort_perm (np.sort vals)) as Hp.
    destruct (np.sort (np.sort vals)) as [ | x aux ].
    { apply Permutation_nil in Hp. rewrite Hp in Hp'.
      apply Permutation_nil in Hp'. congruence. }
    rewrite drop_repeats_all_equal; [ reflexivity | ].
    intros z Hz. apply Heq'; apply (Permutation_in _ Hp);
      [ right; exact Hz | left; reflexivity ].
  - unfold Mpl.from_list in Ecm. destruct cl as [ | s cl ];
      [ | discriminate ].
    destruct vals; [ congruence | discriminate ].
Qed.

Lemma degenerate_range_raises_witness :
  (exists vmin vmax,
     np.amin (np.sort [5]) = Ok vmin /\ np.amax (np.sort [5]) = Ok vmax /\
     vmin == vmax /\ denominator vmin vmax = 1) /\
  (exists cl, color_list_of one_value = Ok (np.sort [5], cl)) /\
  creates_palette one_value "both" = Raise "ValueError"%string.
Proof.
  apply (degenerate_range_raises one_value [5] [RGBA 0 0 0 1] "both").
  - reflexivity.
  - discriminate.
  - intros x y [<- | []] [<- | []]. reflexivity.
Defined.

Lemma single_color_repeated_witness :
  _colors_from_spec (Colors [Mpl.Name "black"]) 3
  = Ok (repeat (RGBA 0 0 0 1) 3) /\
  accumulate_step ([7], [RGBA 1 1 1 1])
                  (Pal (Colors [Mpl.Name "black"]) [1; 2; 3] [])
  = Ok ([7; 1; 2; 3],
        [RGBA 1 1 1 1; RGBA 0 0 0 1; RGBA 0 0 0 1; RGBA 0 0 0 1]).
Proof.
  apply (single_color_repeated (M := Mpl.matplotlib) (Mpl.Name "black")
           (RGBA 0 0 0 1) 3 [1; 2; 3] [] ([7], [RGBA 1 1 1 1])).
  reflexivity.
Defined.

Lemma colors_interpolated_witness :
  _colors_from_spec (Colors [Mpl.Name "black"; Mpl.Name "white"]) 3
  = Ok (map (spec_interp [RGBA 0 0 0 1; RGBA 1 1 1 1] 3) (seq 0 3))
  /\ (forall cA cB m, [RGBA 0 0 0 1; RGBA 1 1 1 1] = [cA; cB] ->
        3%nat = (2 * m + 1)%nat ->
        exists c,
          nth_error (map (spec_interp [RGBA 0 0 0 1; RGBA 1 1 1 1] 3)
                         (seq 0 3)) m = Some c
          /\ rgba_eq c (rgba_mean cA cB)).
Proof.
  apply (colors_interpolated (M := Mpl.matplotlib)
           [Mpl.Name "black"; Mpl.Name "white"]
           [RGBA 0 0 0 1; RGBA 1 1 1 1] 3).
  - reflexivity.
  - simpl. lia.
  - lia.
Defined.

Lemma single_value_first_color_witness :
  Z.max (Z.of_nat 1 - 1) 1 = 1%Z /\
  interp_t 1 0 == 0 /\
  exists c', _colors_from_spec (Colors [Mpl.Name "black"; Mpl.Name "white"]) 1
             = Ok [c']
             /\ rgba_eq c' (RGBA 0 0 0 1).
Proof.
  apply (single_value_first_color (M := Mpl.matplotlib) (Mpl.Name "black")
           (Mpl.Name "white") [] (RGBA 0 0 0 1)).
  reflexivity.
Defined.

Lemma single_stop_at_one_witness :
  color_list_of one_value = Ok ([5], [(1, RGBA 0 0 0 1)]).
Proof.
  apply (single_stop_at_one (M := Mpl.matplotlib) one_value 5 (RGBA 0 0 0 1)).
  reflexivity.
Defined.

End OnMatplotlib.

(* ================================================================== *)
(** * Further properties *)

(** ** range: the rounding and the count, descending ranges, ranges that
    start above [stop] *)

Lemma Qfloor_unique (x : Q) (z : Z) :
  inject_Z z <= x -> x < inject_Z (z + 1) -> Qfloor x = z.
Proof.
  intros Hl Hu.
  assert (H1 : (z <= Qfloor x)%Z).
  { rewrite <- (Qfloor_Z z). apply Qfloor_resp_le. exact Hl. }
  assert (H2 : (Qfloor x < z + 1)%Z).
  { rewrite Zlt_Qlt. eapply Qle_lt_trans; [ apply Qfloor_le | exact Hu ]. }
  lia.
Qed.

Lemma Qfloor_within_one (q e : Q) :
  e - 1 < q -> q < e + 1 ->
  (Qfloor e - 1 <= Qfloor q <= Qfloor e + 1)%Z.
Proof.
  intros H1 H2.
  pose proof (Qfloor_le e) as A. pose proof (Qlt_floor e) as B.
  pose proof (Qfloor_le q) as C. pose proof (Qlt_floor q) as D.
  rewrite inject_Z_plus in B, D. change (inject_Z 1) with 1 in B, D.
  assert (L : inject_Z (Qfloor e) < inject_Z (Qfloor q + 2)).
  { rewrite inject_Z_plus. change (inject_Z 2) with 2. lra. }
  assert (U : inject_Z (Qfloor q) < inject_Z (Qfloor e + 2)).
  { rewrite inject_Z_plus. change (inject_Z 2) with 2. lra. }
  rewrite <- Zlt_Qlt in L, U. lia.
Qed.


(** The rounding of the quotient moves the number of values by one at
    most.  For floats with [stop] on the side of [start] that [step]
    points to, a difference that does not overflow and an exact quotient
    [(stop - start) / step] below [2 ^ 51], [range] returns the floor of
    the exact quotient plus one values, or one fewer, or one more: the
    rounding can drop a last value at [stop] and can add one just beyond
    [stop], and no more. *)
Theorem range_count_within_one (start stop step : Q) :
  Float.is_float start -> Float.is_float stop -> Float.is_float step ->
  ~ step == 0 -> Float.no_overflow (stop - start) ->
  0 <= (stop - start) / step -> (stop - start) / step < 2 ^ 51 ->
  exists l,
    range start stop step = Ok l /\
    (Qfloor ((stop - start) / step) <= Z.of_nat (length l)
     <= Qfloor ((stop - start) / step) + 2)%Z.
Proof.
  intros _ _ _ Hne _ He Hlt.
  pose proof (float_quotient_near (stop - start) step Hne) as H.
  pose proof (float_quotient_nonneg start stop step He) as Hq.
  destruct (range_closed_form start stop step Hne Hq)
    as (l & Hl & Hlen & _).
  exists l. split; [ exact Hl | ]. rewrite Hlen.
  unfold Float.sub in *.
  set (e := (stop - start) / step) in *.
  set (q := Float.div (Float.round (stop - start)) step) in *.
  rewrite (Qabs_pos e He) in H. apply Qabs_Qle_condition in H.
  change (2 ^ (-51)) with (1 # 2251799813685248) in H.
  change (2 ^ 51) with 2251799813685248 in Hlt.
  assert (W : (Qfloor e - 1 <= Qfloor q <= Qfloor e + 1)%Z)
    by (apply Qfloor_within_one; lra).
  lia.
Qed.

(** [range(0.0, 1.0, 0.1)]: the exact quotient is below 10, and there are
    11 values. *)
Lemma range_count_within_one_witness :
  exists l,
    range 0 1 (Float.round (1 # 10)) = Ok l /\
    (Qfloor ((1 - 0) / Float.round (1 # 10)) <= Z.of_nat (length l)
     <= Qfloor ((1 - 0) / Float.round (1 # 10)) + 2)%Z.
Proof.
  apply (range_count_within_one 0 1 (Float.round (1 # 10)));
    vm_compute; reflexivity || discriminate.
Defined.

(** With a negative step and [stop <= start], [range] counts down from
    [start]: for floats whose difference and quotient do not overflow it
    returns the floor of the quotient of line 36 plus one values, at least
    one, the [i]-th at [start + step * i]. *)
Theorem range_counts_down (start stop step : Q) :
  Float.is_float start -> Float.is_float stop -> Float.is_float step ->
  stop <= start -> step < 0 ->
  Float.no_overflow (stop - start) ->
  Float.no_overflow ((stop - start) / step) ->
  exists l,
    range start stop step = Ok l /\
    Z.of_nat (length l)
    = (Qfloor (Float.div (Float.sub stop start) step) + 1)%Z /\
    (1 <= length l)%nat /\
    (forall i, (i < length l)%nat ->
       nth i l 0 == start + step * inject_Z (Z.of_nat i)) /\
    (forall i, (S i < length l)%nat -> nth (S i) l 0 - nth i l 0 == step).
Proof.
  intros _ _ _ Hle Hstep _ _.
  assert (Hne : ~ step == 0) by (intros E; rewrite E in Hstep; discriminate).
  assert (He : 0 <= (stop - start) / step).
  { assert (E : (stop - start) / step == (start - stop) / (- step))
      by (field; exact Hne).
    rewrite E. apply Qle_shift_div_l; lra. }
  pose proof (float_quotient_nonneg start stop step He) as Hq.
  destruct (range_closed_form start stop step Hne Hq)
    as (l & Hl & Hlen & Hnth).
  assert (Hfl : (0 <= Qfloor (Float.div (Float.sub stop start) step))%Z).
  { change 0%Z with (Qfloor 0). apply Qfloor_resp_le. exact Hq. }
  exists l. split; [ exact Hl | ]. split; [ exact Hlen | ].
  split; [ lia | ]. split; [ exact Hnth | ].
  intros i Hi. rewrite !Hnth by lia.
  rewrite Nat2Z.inj_succ. unfold Z.succ. rewrite inject_Z_plus. ring.
Qed.

Lemma range_counts_down_witness :
  exists l,
    range 10 0 (- (5 # 2)) = Ok l /\
    Z.of_nat (length l)
    = (Qfloor (Float.div (Float.sub 0 10) (- (5 # 2))) + 1)%Z /\
    (1 <= length l)%nat /\
    (forall i, (i < length l)%nat ->
       nth i l 0 == 10 + - (5 # 2) * inject_Z (Z.of_nat i)) /\
    (forall i, (S i < length l)%nat ->
       nth (S i) l 0 - nth i l 0 == - (5 # 2)).
Proof.
  apply (range_counts_down 10 0 (- (5 # 2)));
    vm_compute; reflexivity || discriminate.
Defined.

(** With a positive step and [stop] below [start], [range] returns no
    value.  For floats whose difference does not overflow, when [stop] is
    below [start] by [1 - 2 ^ -50] steps at most (and not by so little
    that the quotient is below the normal floats) it returns the empty
    array; when [stop] is below [start] by [1 + 2 ^ -50] steps or more
    (and the quotient does not overflow) it raises the ValueError of
    [np.linspace] for a negative number of samples.  Between the two the
    rounding of the quotient decides. *)
Theorem range_below_start (start stop step : Q) :
  Float.is_float start -> Float.is_float stop -> Float.is_float step ->
  0 < step -> Float.no_overflow (stop - start) ->
  (step * 2 ^ (-1022) <= start - stop ->
   start - stop <= step * (1 - 2 ^ (-50)) ->
   range start stop step = Ok []) /\
  (step * (1 + 2 ^ (-50)) <= start - stop ->
   Float.no_overflow ((stop - start) / step) ->
   range start stop step = Raise "ValueError"%string).
Proof.
  intros _ _ _ Hstep _.
  assert (Hne : ~ step == 0) by (intros E; rewrite E in Hstep; discriminate).
  assert (E0 : Qeq_bool step 0 = false).
  { destruct (Qeq_bool step 0) eqn:E; [ | reflexivity ].
    apply Qeq_bool_eq in E. contradiction. }
  pose proof (float_quotient_near (stop - start) step Hne) as H.
  assert (Hes : (stop - start) / step * step == stop - start)
    by (field; exact Hne).
  unfold range. rewrite E0. cbv zeta. unfold np.floor, Float.sub.
  set (e := (stop - start) / step) in *.
  set (q := Float.div (Float.round (stop - start)) step) in *.
  change (2 ^ (-51)) with (1 # 2251799813685248) in H.
  change (2 ^ (-50)) with (1 # 1125899906842624).
  split.
  - intros Hlow Hnear.
    assert (P : 0 < 2 ^ (-1022)) by apply pow2_pos.
    assert (Hlt : stop < start) by nra.
    assert (He : e < 0).
    { unfold e. apply Qlt_shift_div_r; [ exact Hstep | lra ]. }
    assert (He' : - (1 - (1 # 1125899906842624)) <= e).
    { unfold e. apply Qle_shift_div_l; [ exact Hstep | lra ]. }
    rewrite (Qabs_neg e) in H by lra. apply Qabs_Qle_condition in H.
    assert (Hf : Qfloor q = (-1)%Z).
    { apply Qfloor_unique.
      - change (inject_Z (-1)) with (- (1)). lra.
      - change (inject_Z (-1 + 1)) with 0. lra. }
    rewrite Hf. reflexivity.
  - intros Hfar _.
    assert (He : e <= - (1 + (1 # 1125899906842624))).
    { unfold e. apply Qle_shift_div_r; [ exact Hstep | lra ]. }
    rewrite (Qabs_neg e) in H by lra. apply Qabs_Qle_condition in H.
    assert (Hf : (Qfloor q < -1)%Z).
    { rewrite Zlt_Qlt. eapply Qle_lt_trans; [ apply Qfloor_le | ].
      change (inject_Z (-1)) with (- (1)). lra. }
    unfold np.linspace.
    destruct (Z.ltb_spec (Qfloor q + 1) 0) as [_ | H']; [ reflexivity | lia ].
Qed.

Lemma range_below_start_witness :
  (1 * 2 ^ (-1022) <= 3 - (5 # 2) ->
   3 - (5 # 2) <= 1 * (1 - 2 ^ (-50)) ->
   range 3 (5 # 2) 1 = Ok []) /\
  (1 * (1 + 2 ^ (-50)) <= 3 - (5 # 2) ->
   Float.no_overflow (((5 # 2) - 3) / 1) ->
   range 3 (5 # 2) 1 = Raise "ValueError"%string).
Proof.
  apply (range_below_start 3 (5 # 2) 1); vm_compute; reflexivity.
Defined.

(* ================================================================== *)
(** ** _colors_from_spec: sampling, end colours, validity, errors *)

Lemma linspace_last (a b : Q) (n : nat) :
  (2 <= n)%nat ->
  exists l, np.linspace a b (Z.of_nat n) = Ok l /\ last l 0 = b.
Proof.
  intros Hn. unfold np.linspace.
  destruct (Z.ltb_spec (Z.of_nat n) 0) as [Hneg | _]; [ lia | ].
  cbv zeta.
  destruct (Z.ltb_spec 1 (Z.of_nat n)) as [_ | H1]; [ | lia ].
  destruct (Z.ltb_spec 0 (Z.of_nat n - 1)) as [_ | H0]; [ | lia ].
  match goal with |- context [setitem ?y _ _] => set (l0 := y) end.
  assert (Hl0 : l0 <> []).
  { intros E. apply (f_equal (@length Q)) in E. unfold l0 in E.
    rewrite !length_map, length_seq, Nat2Z.id in E. simpl in E. lia. }
  destruct (exists_last Hl0) as (l' & y & ->).
  rewrite setitem_last. eexists. split; [ reflexivity | apply last_last ].
Qed.

Lemma blend_at_zero (frac : Q) (c0 c1 : rgba) :
  frac == 0 ->
  rgba_eq (rgba_add (rgba_scale (1 - frac) c0) (rgba_scale frac c1)) c0.
Proof.
  intros E. unfold rgba_eq, rgba_add, rgba_scale; simpl.
  repeat split; rewrite E; ring.
Qed.

Lemma blend_in_gamut (frac : Q) (c0 c1 : rgba) :
  0 <= frac -> frac <= 1 -> in_gamut c0 -> in_gamut c1 ->
  in_gamut (rgba_add (rgba_scale (1 - frac) c0) (rgba_scale frac c1)).
Proof.
  unfold in_gamut, rgba_add, rgba_scale; simpl.
  intros H0 H1 (Hr & Hg & Hb & Ha) (Hr' & Hg' & Hb' & Ha').
  repeat split; nra.
Qed.

Section ColorsFromSpecMore.

Context {M : mcolors}.

(** The position of the first pass of the loop is 0, whatever the numbers
    of values and of colours. *)
Lemma interp_pos_first (n : nat) (z : Z) :
  Qfloor (interp_t n 0 * inject_Z z) = 0%Z.
Proof.
  assert (E : interp_t n 0 * inject_Z z == 0).
  { unfold interp_t. simpl (Z.of_nat 0). unfold Qdiv.
    change (inject_Z 0) with 0. ring. }
  rewrite E. reflexivity.
Qed.

(** A Colormap is sampled at as many points as there are values, the
    [i]-th at the position [t = i / max(n - 1, 1)] that the interpolation
    of a colour list uses: evenly over [0, 1], whatever the values of the
    segment are.  With two or more values the last sample is at exactly
    1. *)
Theorem colormap_sampled (cm : Q -> rgba) (n : nat) :
  exists xs,
    _colors_from_spec (Cmap cm) n = Ok (map cm xs) /\
    length xs = n /\
    (forall i, (i < n)%nat -> nth i xs 0 == interp_t n i) /\
    ((2 <= n)%nat -> last xs 0 = 1).
Proof.
  simpl. destruct n as [ | n ].
  - exists []. repeat split; [ intros i Hi; lia | intros H; lia ].
  - destruct (linspace_spec 0 1 (S n)) as (xs & Hxs & Hlen & Hnth); [ lia | ].
    rewrite Hxs. exists xs. split; [ reflexivity | ]. split; [ exact Hlen | ].
    split.
    + intros i Hi. rewrite (Hnth i Hi). unfold interp_t.
      destruct n as [ | n ].
      * assert (i = 0%nat) as -> by lia. reflexivity.
      * rewrite Z.max_l by lia. unfold Qdiv. ring.
    + intros H2. destruct (linspace_last 0 1 (S n) H2) as (l & Hl & Hlast).
      rewrite Hxs in Hl. injection Hl as <-. exact Hlast.
Qed.

(** A non-empty list of valid colours never raises: for every number of
    values it gives that many colours, and when the colours of the list are
    within [0, 1] so is every colour resolved. *)
Theorem valid_colors_resolved (names : list color) (cols : list rgba)
    (n : nat) :
  mapM to_rgba names = Ok cols -> names <> [] ->
  exists res,
    _colors_from_spec (Colors names) n = Ok res /\
    length res = n /\
    (Forall in_gamut cols -> Forall in_gamut res).
Proof.
  intros Hcols Hne. pose proof (mapM_length _ _ _ Hcols) as Hl.
  simpl. destruct (Nat.eqb_spec (length names) 1) as [E1 | E1].
  - destruct names as [ | a [ | b names ] ]; try discriminate.
    simpl in Hcols. bind_inv Hcols as c Hc. injection Hcols as <-.
    change (getitem [a] 0) with (Ok a). simpl. rewrite Hc. simpl.
    exists (repeat c n). split; [ reflexivity | ].
    split; [ apply repeat_length | ].
    intros Hg. apply Forall_forall. intros x Hx.
    apply repeat_spec in Hx. subst x. inversion Hg; assumption.
  - assert (HL : (1 <= length names)%nat)
      by (destruct names; [ congruence | simpl; lia ]).
    set (g := fun i : nat =>
      let pos := interp_t n i * inject_Z (Z.of_nat (length names) - 1) in
      let frac := pos - inject_Z (Qfloor pos) in
      rgba_add
        (rgba_scale (1 - frac)
           (nth (Z.to_nat (Qfloor pos)) cols (RGBA 0 0 0 0)))
        (rgba_scale frac
           (nth (Z.to_nat (Qceiling pos)) cols (RGBA 0 0 0 0)))).
    rewrite (mapM_Ok_map _ g).
    + exists (map g (seq 0 n)). split; [ reflexivity | ].
      split; [ rewrite length_map; apply length_seq | ].
      intros Hg. apply Forall_map, Forall_forall. intros i Hi.
      apply in_seq in Hi.
      destruct (interp_index_bounds (length names) n i HL) as [Hf Hc];
        [ lia | ].
      unfold g. cbv zeta.
      set (pos := interp_t n i * inject_Z (Z.of_nat (length names) - 1))
        in *.
      pose proof (Qfloor_le pos) as F1. pose proof (Qlt_floor pos) as F2.
      rewrite inject_Z_plus in F2. change (inject_Z 1) with 1 in F2.
      apply blend_in_gamut; try lra;
        (eapply Forall_forall; [ exact Hg | apply nth_In; lia ]).
    + intros i Hi. apply in_seq in Hi.
      apply (interp_color_blend names cols n i Hcols HL). lia.
Qed.

(** With two or more valid colours over two or more values, the first
    colour resolved is the first colour of the list and the last colour
    resolved is its last colour. *)
Theorem interpolation_end_colors (names : list color) (cols : list rgba)
    (n : nat) :
  mapM to_rgba names = Ok cols ->
  (2 <= length names)%nat -> (2 <= n)%nat ->
  exists res,
    _colors_from_spec (Colors names) n = Ok res /\
    rgba_eq (nth 0 res (RGBA 0 0 0 0)) (nth 0 cols (RGBA 0 0 0 0)) /\
    rgba_eq (last res (RGBA 0 0 0 0)) (last cols (RGBA 0 0 0 0)).
Proof.
  intros Hcols HL Hn. pose proof (mapM_length _ _ _ Hcols) as Hl.
  simpl. destruct (Nat.eqb_spec (length names) 1) as [E1 | _]; [ lia | ].
  set (g := fun i : nat =>
    let pos := interp_t n i * inject_Z (Z.of_nat (length names) - 1) in
    let frac := pos - inject_Z (Qfloor pos) in
    rgba_add
      (rgba_scale (1 - frac)
         (nth (Z.to_nat (Qfloor pos)) cols (RGBA 0 0 0 0)))
      (rgba_scale frac
         (nth (Z.to_nat (Qceiling pos)) cols (RGBA 0 0 0 0)))).
  rewrite (mapM_Ok_map _ g)
    by (intros i Hi; apply in_seq in Hi;
        apply (interp_color_blend names cols n i Hcols); lia).
  exists (map g (seq 0 n)). split; [ reflexivity | ]. split.
  - rewrite nth_map_seq by lia. unfold g. cbv zeta.
    rewrite interp_pos_first. simpl (Z.to_nat 0).
    apply blend_at_zero.
    assert (E : interp_t n 0 * inject_Z (Z.of_nat (length names) - 1) == 0).
    { unfold interp_t. simpl (Z.of_nat 0). unfold Qdiv.
      change (inject_Z 0) with 0. ring. }
    rewrite E. reflexivity.
  - rewrite !last_as_nth, length_map, length_seq, nth_map_seq by lia.
    unfold g. cbv zeta.
    assert (E : interp_t n (n - 1) * inject_Z (Z.of_nat (length names) - 1)
                == inject_Z (Z.of_nat (length names) - 1)).
    { unfold interp_t. rewrite Z.max_l by lia.
      replace (Z.of_nat (n - 1)) with (Z.of_nat n - 1)%Z by lia.
      field. apply inject_Z_pos_neq0. lia. }
    set (pos := interp_t n (n - 1)
                * inject_Z (Z.of_nat (length names) - 1)) in *.
    assert (Hf : Qfloor pos = (Z.of_nat (length names) - 1)%Z)
      by (rewrite E; apply Qfloor_Z).
    rewrite Hf.
    replace (Z.to_nat (Z.of_nat (length names) - 1))
      with (length cols - 1)%nat by lia.
    apply blend_at_zero. rewrite E. ring.
Qed.

(** An empty colour list gives no colour for no value and raises
    IndexError as soon as there is a value; the loop of [creates_palette]
    then raises it too. *)
Theorem empty_color_list (n : nat) (vals : list Q) (rest : list extra_arg)
    (acc : list Q * list rgba) :
  _colors_from_spec (Colors []) 0 = Ok [] /\
  ((1 <= n)%nat ->
   _colors_from_spec (Colors []) n = Raise "IndexError"%string) /\
  (vals <> [] ->
   accumulate_step acc (Pal (Colors []) vals rest)
   = Raise "IndexError"%string).
Proof.
  assert (H : forall k, (1 <= k)%nat ->
            _colors_from_spec (Colors []) k = Raise "IndexError"%string).
  { intros k Hk. destruct k as [ | k ]; [ lia | ].
    change (_colors_from_spec (Colors []) (S k))
      with (bind (interp_color [] (S k) 0)
              (fun y => bind (mapM (interp_color [] (S k)) (seq 1 k))
                          (fun ys => Ok (y :: ys)))).
    unfold interp_color. cbv zeta. unfold np.floor.
    rewrite interp_pos_first. reflexivity. }
  split; [ reflexivity | ]. split; [ apply H | ].
  intros Hv. unfold accumulate_step. rewrite H; [ reflexivity | ].
  destruct vals; [ congruence | simpl; lia ].
Qed.

(** A colour list whose first colour matplotlib rejects raises
    matplotlib's exception as soon as there is a value, and the whole call
    to [creates_palette] raises it when such a segment comes first. *)
Theorem invalid_first_color (a : color) (names : list color) (e : exn)
    (n : nat) (vals : list Q) (rest : list extra_arg)
    (paletas : list paleta) (extend : string) :
  to_rgba a = Raise e ->
  ((1 <= n)%nat -> _colors_from_spec (Colors (a :: names)) n = Raise e) /\
  (vals <> [] ->
   creates_palette (Pal (Colors (a :: names)) vals rest :: paletas) extend
   = Raise e).
Proof.
  intros Ha.
  assert (H : forall k, (1 <= k)%nat ->
            _colors_from_spec (Colors (a :: names)) k = Raise e).
  { intros k Hk. destruct k as [ | k ]; [ lia | ].
    destruct names as [ | b names ].
    - simpl. change (getitem [a] 0) with (Ok a). simpl. rewrite Ha.
      reflexivity.
    - set (l := a :: b :: names).
      change (_colors_from_spec (Colors l) (S k))
        with (bind (interp_color l (S k) 0)
                (fun y => bind (mapM (interp_color l (S k)) (seq 1 k))
                            (fun ys => Ok (y :: ys)))).
      unfold interp_color. cbv zeta. unfold np.floor.
      rewrite interp_pos_first.
      change (getitem l 0) with (Ok a). simpl. rewrite Ha. reflexivity. }
  split; [ apply H | ].
  intros Hv. unfold creates_palette, color_list_of, accumulate.
  cbn [foldM]. unfold accumulate_step at 1.
  rewrite H; [ reflexivity | ].
  destruct vals; [ congruence | simpl; lia ].
Qed.

End ColorsFromSpecMore.

(* ================================================================== *)
(** ** creates_palette: what the result depends on *)

Lemma mapM_Ok_Forall {A B : Type} (f : A -> result B) (l : list A) :
  (exists ys, mapM f l = Ok ys) <-> Forall (fun x => exists y, f x = Ok y) l.
Proof.
  induction l as [ | x l IH ]; simpl.
  - split; [ constructor | intros _; exists []; reflexivity ].
  - split.
    + intros (ys & H). bind_inv H as y Hy. bind_inv H as ys' Hys.
      constructor; [ exists y; exact Hy | ].
      apply IH. exists ys'. exact Hys.
    + intros H. inversion H as [ | ? ? (y & Hy) Hl ]; subst.
      apply IH in Hl. destruct Hl as (ys & Hys).
      rewrite Hy, Hys. simpl. eexists. reflexivity.
Qed.

(** Two strictly ascending arrays with the same values are equal, value
    by value. *)
Lemma sorted_unique_ext (l : list Q) :
  forall l', StronglySorted Qlt l -> StronglySorted Qlt l' ->
    (forall y, InA Qeq y l <-> InA Qeq y l') -> Forall2 Qeq l l'.
Proof.
  induction l as [ | x l IH ]; intros l' Hs Hs' Hm.
  - destruct l' as [ | y l' ]; [ constructor | ].
    assert (H : InA Qeq y []) by (apply Hm; left; reflexivity).
    inversion H.
  - destruct l' as [ | y l' ].
    { assert (H : InA Qeq x []) by (apply Hm; left; reflexivity).
      inversion H. }
    apply StronglySorted_inv in Hs. destruct Hs as [Hs Hx].
    apply StronglySorted_inv in Hs'. destruct Hs' as [Hs' Hy].
    assert (Hgt : forall (a : Q) (t : list Q) (z : Q),
              Forall (Qlt a) t -> InA Qeq z t -> a < z).
    { intros a t z Ha Hz. apply InA_alt in Hz. destruct Hz as (w & Ezw & Hw).
      rewrite Ezw. eapply Forall_forall in Ha; eassumption. }
    assert (Exy : x == y).
    { assert (Hx' : InA Qeq x (y :: l')) by (apply Hm; left; reflexivity).
      assert (Hy' : InA Qeq y (x :: l)) by (apply Hm; left; reflexivity).
      apply InA_cons in Hx'. apply InA_cons in Hy'.
      destruct Hx' as [E | Hx']; [ exact E | ].
      destruct Hy' as [E | Hy']; [ symmetry; exact E | ].
      pose proof (Hgt _ _ _ Hy Hx'). pose proof (Hgt _ _ _ Hx Hy'). lra. }
    constructor; [ exact Exy | ].
    apply IH; [ exact Hs | exact Hs' | ].
    intros z. split; intros Hz.
    + assert (H : InA Qeq z (y :: l')) by (apply Hm; right; exact Hz).
      apply InA_cons in H. destruct H as [E | H]; [ | exact H ].
      pose proof (Hgt _ _ _ Hx Hz). lra.
    + assert (H : InA Qeq z (x :: l)) by (apply Hm; right; exact Hz).
      apply InA_cons in H. destruct H as [E | H]; [ | exact H ].
      pose proof (Hgt _ _ _ Hy Hz). lra.
Qed.

Section CreatesPaletteMore.

Context {M : mcolors}.

(** The loop succeeds exactly when every segment's colours resolve, and
    then appends the values and colours of the segments in their order. *)
Lemma foldM_accumulate_char (paletas : list paleta) :
  forall acc r,
    foldM accumulate_step paletas acc = Ok r <->
    exists colss,
      mapM segment_colors paletas = Ok colss /\
      r = (fst acc ++ flat_map valores paletas, snd acc ++ concat colss).
Proof.
  induction paletas as [ | pal paletas IH ]; intros acc r; simpl.
  - split.
    + intros H. injection H as <-. exists []. split; [ reflexivity | ].
      simpl. rewrite !app_nil_r. destruct acc; reflexivity.
    + intros (colss & H & ->). injection H as <-. simpl.
      rewrite !app_nil_r. destruct acc; reflexivity.
  - split.
    + intros H. bind_inv H as acc' Hstep. apply IH in H.
      destruct H as (colss & Hc & ->).
      destruct pal as [ | x | spec vals rest ]; simpl in Hstep |- *.
      * injection Hstep as <-. rewrite Hc. simpl. eexists.
        split; reflexivity.
      * injection Hstep as <-. rewrite Hc. simpl. eexists.
        split; reflexivity.
      * bind_inv Hstep as cs Hcs. injection Hstep as <-.
        rewrite Hcs, Hc. simpl. eexists. split; [ reflexivity | ].
        simpl. rewrite <- !app_assoc. reflexivity.
    + intros (colss & H & ->). bind_inv H as cs Hcs. bind_inv H as css Hcss.
      injection H as <-.
      destruct pal as [ | x | spec vals rest ]; simpl in Hcs |- *.
      * injection Hcs as <-. apply IH. exists css. split; [ exact Hcss | ].
        reflexivity.
      * injection Hcs as <-. apply IH. exists css. split; [ exact Hcss | ].
        reflexivity.
      * rewrite Hcs. simpl. apply IH. exists css. split; [ exact Hcss | ].
        simpl. rewrite <- !app_assoc. reflexivity.
Qed.

Lemma accumulate_values (paletas : list paleta) (vals : list Q)
    (cols : list rgba) :
  accumulate paletas = Ok (vals, cols) -> vals = flat_map valores paletas.
Proof.
  unfold accumulate. intros H. apply foldM_accumulate_char in H.
  destruct H as (colss & _ & H). injection H as -> _. reflexivity.
Qed.

(** What [creates_palette] returns as [bounds], when it returns. *)
Lemma returned_bounds (paletas : list paleta) (extend : string) (r : palette)
    (vals : list Q) (cols : list rgba) :
  accumulate paletas = Ok (vals, cols) ->
  creates_palette paletas extend = Ok r ->
  bounds r = np.unique (np.sort vals).
Proof.
  unfold creates_palette, color_list_of. intros Hacc H. rewrite Hacc in H.
  cbn [bind fst snd] in H.
  bind_inv H as stops Hn. bind_inv H as cm Hcm. bind_inv H as nm Hnm.
  injection H as <-. apply normalize_sorted_values in Hn.
  simpl. rewrite Hn. reflexivity.
Qed.

(** Items of a segment after the first two have no effect at all. *)
Theorem extra_items_ignored (paletas : list paleta) (extend : string) :
  accumulate (map drop_extra paletas) = accumulate paletas /\
  creates_palette (map drop_extra paletas) extend
  = creates_palette paletas extend.
Proof.
  assert (H : accumulate (map drop_extra paletas) = accumulate paletas).
  { unfold accumulate. generalize (@nil Q, @nil rgba).
    induction paletas as [ | pal paletas IH ]; intros acc; [ reflexivity | ].
    simpl.
    assert (E : accumulate_step acc (drop_extra pal)
                = accumulate_step acc pal) by (destruct pal; reflexivity).
    rewrite E. destruct (accumulate_step acc pal); simpl;
      [ apply IH | reflexivity ]. }
  split; [ exact H | ].
  unfold creates_palette, color_list_of. rewrite H. reflexivity.
Qed.

(** The boundaries do not depend on the order of the segments: when the
    segments of one list are those of another in a different order, both
    accumulate (or neither does), the same values up to order, and the
    boundaries the two calls return are equal, value by value. *)
Theorem segment_order_irrelevant (paletas paletas' : list paleta)
    (vals : list Q) (cols : list rgba) :
  Permutation paletas paletas' ->
  accumulate paletas = Ok (vals, cols) ->
  exists vals' cols',
    accumulate paletas' = Ok (vals', cols') /\
    Permutation vals vals' /\
    Forall2 Qeq (np.unique (np.sort vals)) (np.unique (np.sort vals')) /\
    (forall extend extend' r r',
       creates_palette paletas extend = Ok r ->
       creates_palette paletas' extend' = Ok r' ->
       Forall2 Qeq (bounds r) (bounds r')).
Proof.
  intros Hp Hacc. pose proof Hacc as Hchar. unfold accumulate in Hchar.
  apply foldM_accumulate_char in Hchar. destruct Hchar as (colss & Hc & Hr).
  injection Hr as Hvals Hcols. simpl in Hvals.
  assert (Hall : exists colss', mapM segment_colors paletas' = Ok colss').
  { apply mapM_Ok_Forall. apply (Permutation_Forall Hp).
    apply mapM_Ok_Forall. exists colss. exact Hc. }
  destruct Hall as (colss' & Hc').
  assert (Hacc' : accumulate paletas'
                  = Ok (flat_map valores paletas', concat colss')).
  { unfold accumulate. apply foldM_accumulate_char. exists colss'.
    split; [ exact Hc' | reflexivity ]. }
  assert (Hpv : Permutation vals (flat_map valores paletas')).
  { rewrite Hvals. apply Permutation_flat_map. exact Hp. }
  assert (Hb : Forall2 Qeq (np.unique (np.sort vals))
                 (np.unique (np.sort (flat_map valores paletas')))).
  { apply sorted_unique_ext; try apply unique_sorted.
    intros y. rewrite !unique_members. split; intros Hy.
    - apply (InA_Qeq_perm _ _ y (sort_perm _)) in Hy.
      apply (InA_Qeq_perm _ _ y Hpv) in Hy.
      apply (InA_Qeq_perm _ _ y (Permutation_sym (sort_perm _))). exact Hy.
    - apply (InA_Qeq_perm _ _ y (sort_perm _)) in Hy.
      apply (InA_Qeq_perm _ _ y (Permutation_sym Hpv)) in Hy.
      apply (InA_Qeq_perm _ _ y (Permutation_sym (sort_perm _))). exact Hy. }
  exists (flat_map valores paletas'), (concat colss').
  split; [ exact Hacc' | ]. split; [ exact Hpv | ]. split; [ exact Hb | ].
  intros extend extend' r r' Hr Hr'.
  rewrite (returned_bounds _ _ _ _ _ Hacc Hr).
  rewrite (returned_bounds _ _ _ _ _ Hacc' Hr'). exact Hb.
Qed.

End CreatesPaletteMore.

(* ================================================================== *)
(** ** The positions of the control points *)

Lemma last_cons {A : Type} (s : list A) :
  forall y x, last (y :: s) x = last s y.
Proof.
  induction s as [ | z s IH ]; intros y x; [ reflexivity | ].
  change (last (y :: z :: s) x) with (last (z :: s) x).
  rewrite (IH z x). symmetry. apply (IH z y).
Qed.

(** The minimum of an ascending array is its first value, the maximum its
    last. *)
Lemma fold_min_sorted (s : list Q) :
  forall a x, a == x -> Forall (Qle x) s -> fold_left Qmin s a == x.
Proof.
  induction s as [ | y s IH ]; intros a x Ha Hs; simpl; [ exact Ha | ].
  apply Forall_cons_iff in Hs. destruct Hs as [Hy Hs].
  apply IH; [ | exact Hs ].
  rewrite Q.min_l; [ exact Ha | rewrite Ha; exact Hy ].
Qed.

Lemma fold_max_sorted (s : list Q) :
  forall a x, a == x -> StronglySorted Qle (x :: s) ->
    fold_left Qmax s a == last s x.
Proof.
  induction s as [ | y s IH ]; intros a x Ha Hs; simpl fold_left.
  - exact Ha.
  - apply StronglySorted_inv in Hs. destruct Hs as [Hs Hx].
    apply Forall_cons_iff in Hx. destruct Hx as [Hxy _].
    rewrite last_cons. apply IH; [ | exact Hs ].
    apply Q.max_r. rewrite Ha. exact Hxy.
Qed.

Lemma sorted_le_last (s : list Q) :
  forall x v, StronglySorted Qle (x :: s) -> In v (x :: s) -> v <= last s x.
Proof.
  induction s as [ | y s IH ]; intros x v Hs Hv.
  - destruct Hv as [<- | []]. apply Qle_refl.
  - apply StronglySorted_inv in Hs. destruct Hs as [Hs Hx].
    rewrite last_cons. destruct Hv as [<- | Hv].
    + apply Forall_cons_iff in Hx. destruct Hx as [Hxy _].
      eapply Qle_trans; [ exact Hxy | ].
      apply IH; [ exact Hs | left; reflexivity ].
    + apply IH; assumption.
Qed.

Lemma Forall2_replace_nth {A B : Type} (R : A -> B -> Prop) (l : list A) :
  forall (vs : list B) (k : nat) (y : A),
    Forall2 R l vs -> (forall v, nth_error vs k = Some v -> R y v) ->
    Forall2 R (replace_nth l k y) vs.
Proof.
  induction l as [ | x l IH ]; intros vs k y H Hy.
  - inversion H; subst. destruct k; constructor.
  - inversion H as [ | ? v ? vs' Hxv Hl ]; subst.
    destruct k as [ | k ]; simpl.
    + constructor; [ apply Hy; reflexivity | exact Hl ].
    + constructor; [ exact Hxv | ]. apply IH; [ exact Hl | ].
      intros w Hw. apply Hy. exact Hw.
Qed.

Lemma Forall2_map_left {A B : Type} (R : B -> A -> Prop) (h : A -> B)
    (l : list A) :
  (forall v, In v l -> R (h v) v) -> Forall2 R (map h l) l.
Proof.
  induction l as [ | x l IH ]; intros H; simpl; constructor.
  - apply H. left. reflexivity.
  - apply IH. intros v Hv. apply H. right. exact Hv.
Qed.

Section Positions.

Context {M : mcolors}.

(** When the accumulated values are not all equal, every control point is
    at [(value - vmin) / (vmax - vmin)]: over the rationals the clip to
    [0, 1] and the two pins change nothing. *)
Theorem stops_affine (paletas : list paleta) (vals : list Q)
    (cols : list rgba) (vmin vmax : Q) :
  accumulate paletas = Ok (vals, cols) ->
  np.amin (np.sort vals) = Ok vmin -> np.amax (np.sort vals) = Ok vmax ->
  vmin < vmax ->
  exists cl,
    color_list_of paletas = Ok (np.sort vals, cl) /\
    Forall2 (fun p v => p == (v - vmin) / (vmax - vmin))
            (map fst cl) (np.sort vals).
Proof.
  intros Hacc Hmin Hmax Hlt.
  pose proof (accumulate_lengths _ _ _ Hacc) as Hlen.
  unfold color_list_of. rewrite Hacc. cbn [bind fst snd].
  unfold normalize. rewrite take_argsort. cbn [bind].
  destruct (take_in_range cols (np.argsort vals)) as (cols' & -> & Hc').
  { intros i Hi. rewrite <- Hlen. apply argsort_bound. exact Hi. }
  rewrite argsort_length in Hc'. cbn [bind]. rewrite Hmin, Hmax. cbn [bind].
  pose proof (sort_sorted vals) as Hs. pose proof (sort_length vals) as Hsl.
  destruct (np.sort vals) as [ | x s ]; [ discriminate | ].
  simpl in Hmin, Hmax. injection Hmin as Emin. injection Hmax as Emax.
  assert (Hx : vmin == x).
  { rewrite <- Emin. apply fold_min_sorted; [ reflexivity | ].
    apply StronglySorted_inv in Hs. apply Hs. }
  assert (Hl : vmax == last s x).
  { rewrite <- Emax. apply fold_max_sorted; [ reflexivity | exact Hs ]. }
  unfold denominator.
  destruct (Qlt_le_dec vmin vmax) as [_ | Hge]; [ | lra ].
  set (d := vmax - vmin). assert (Hd : 0 < d) by (unfold d; lra).
  assert (Hdne : ~ d == 0) by lra.
  unfold np.clip. cbn [map]. rewrite setitem_first. cbn [bind].
  rewrite setitem_neg1 by discriminate. cbn [bind].
  eexists. split; [ reflexivity | ].
  rewrite map_fst_combine
    by (rewrite replace_nth_length; simpl; rewrite !length_map;
        simpl in Hsl; lia).
  apply Forall2_replace_nth.
  - constructor.
    + rewrite <- Hx. unfold Qdiv. ring.
    + rewrite map_map. apply Forall2_map_left. intros v Hv.
      assert (Hxv : x <= v).
      { apply StronglySorted_inv in Hs. destruct Hs as [_ Hall].
        eapply Forall_forall in Hall; eassumption. }
      assert (Hvl : v <= last s x)
        by (apply sorted_le_last; [ exact Hs | right; exact Hv ]).
      assert (H0 : 0 <= (v - vmin) / d)
        by (apply Qle_shift_div_l; [ exact Hd | lra ]).
      assert (H1 : (v - vmin) / d <= 1)
        by (apply Qle_shift_div_r; [ exact Hd | unfold d; lra ]).
      rewrite Q.max_l by exact H0. apply Q.min_l. exact H1.
  - intros v Hv. simpl length in Hv. rewrite !length_map in Hv.
    replace (S (length s) - 1)%nat with (length (x :: s) - 1)%nat in Hv
      by (simpl; lia).
    apply (nth_error_nth _ _ x) in Hv.
    rewrite <- last_as_nth, last_cons in Hv. subst v.
    rewrite <- Hl. unfold d. field. exact Hdne.
Qed.

End Positions.

(* ================================================================== *)
(** ** Values that are already in order *)

Lemma sort_keys_sorted_id (l : list (Q * nat)) :
  StronglySorted np.key_le l -> np.sort_keys l = l.
Proof.
  induction 1 as [ | x l Hs IH Hall ]; [ reflexivity | ].
  simpl. rewrite IH. destruct l as [ | y l ]; [ reflexivity | ].
  simpl. apply Forall_cons_iff in Hall. destruct Hall as [Hxy _].
  unfold np.key_le in Hxy. apply Qle_bool_iff in Hxy. rewrite Hxy.
  reflexivity.
Qed.

Lemma combine_key_sorted (a : list Q) :
  forall k, StronglySorted Qle a ->
    StronglySorted np.key_le (combine a (seq k (length a))).
Proof.
  induction a as [ | x a IH ]; intros k Hs; simpl; constructor.
  - apply IH. apply StronglySorted_inv in Hs. apply Hs.
  - apply StronglySorted_inv in Hs. destruct Hs as [_ Hall].
    apply Forall_forall. intros [v i] Hin. apply in_combine_l in Hin.
    unfold np.key_le. simpl. eapply Forall_forall in Hall; eassumption.
Qed.

(** On an ascending array [np.argsort] is the identity and [np.sort]
    changes nothing. *)
Lemma argsort_sorted_id (a : list Q) :
  StronglySorted Qle a ->
  np.argsort a = seq 0 (length a) /\ np.sort a = a.
Proof.
  intros Hs. unfold np.argsort, np.sort.
  assert (E : np.sort_keys (np.indexed a) = np.indexed a)
    by apply (sort_keys_sorted_id _ (combine_key_sorted a 0 Hs)).
  rewrite E. split; [ | apply indexed_fst ].
  unfold np.indexed. apply map_snd_combine. rewrite length_seq. reflexivity.
Qed.

Lemma take_seq {A : Type} (d : A) (l : list A) :
  np.take l (seq 0 (length l)) = Ok l.
Proof.
  destruct (take_in_range l (seq 0 (length l))) as (l' & H & Hlen).
  { intros i Hi. apply in_seq in Hi. lia. }
  rewrite H. f_equal. rewrite length_seq in Hlen.
  apply (take_Ok_map l d) in H. subst l'.
  apply (nth_ext _ _ d d); [ exact Hlen | ].
  intros i Hi. rewrite length_map, length_seq in Hi.
  apply (nth_map_seq (fun j => nth j l d)). exact Hi.
Qed.

Lemma StronglySorted_lt_le (l : list Q) :
  StronglySorted Qlt l -> StronglySorted Qle l.
Proof.
  induction 1 as [ | x l Hs IH Hall ]; constructor; [ exact IH | ].
  eapply Forall_impl; [ | exact Hall ]. intros v Hv. apply Qlt_le_weak, Hv.
Qed.

Lemma drop_repeats_strict (aux : list Q) :
  forall prev, StronglySorted Qlt (prev :: aux) ->
    np.drop_repeats prev aux = aux.
Proof.
  induction aux as [ | x aux IH ]; intros prev Hs; [ reflexivity | ].
  apply StronglySorted_inv in Hs. destruct Hs as [Hs Hall].
  apply Forall_cons_iff in Hall. destruct Hall as [Hpx _].
  simpl. destruct (Qeq_bool x prev) eqn:E.
  - apply Qeq_bool_eq in E. rewrite E in Hpx.
    exfalso. exact (Qlt_irrefl prev Hpx).
  - rewrite (IH x Hs). reflexivity.
Qed.

Lemma unique_strict_id (a : list Q) :
  StronglySorted Qlt a -> np.unique a = a.
Proof.
  intros Hs. unfold np.unique.
  rewrite (proj2 (argsort_sorted_id a (StronglySorted_lt_le a Hs))).
  destruct a as [ | x a ]; [ reflexivity | ].
  rewrite (drop_repeats_strict a x Hs). reflexivity.
Qed.

Section InOrder.

Context {M : mcolors}.

(** When the accumulated values are strictly ascending as they stand, as
    with segments over consecutive ranges, nothing is reordered: the
    boundaries are the accumulated values themselves and the [i]-th
    control point carries the [i]-th accumulated colour. *)
Theorem ascending_values_keep_order (paletas : list paleta) (vals : list Q)
    (cols : list rgba) :
  accumulate paletas = Ok (vals, cols) -> vals <> [] ->
  StronglySorted Qlt vals ->
  np.unique (np.sort vals) = vals /\
  exists ps,
    color_list_of paletas = Ok (vals, combine ps cols) /\
    length ps = length vals.
Proof.
  intros Hacc Hne Hs. pose proof (accumulate_lengths _ _ _ Hacc) as Hlen.
  destruct (argsort_sorted_id vals (StronglySorted_lt_le vals Hs))
    as [Harg Hsort].
  split; [ rewrite Hsort; apply unique_strict_id; exact Hs | ].
  destruct (normalize_spec vals cols Hne Hlen) as (cl & Hn & Hcl & _).
  unfold color_list_of. rewrite Hacc. cbn [bind fst snd].
  rewrite Hn, Hsort.
  unfold normalize in Hn. rewrite take_argsort in Hn. cbn [bind] in Hn.
  rewrite Harg, Hlen, (take_seq (RGBA 0 0 0 0)) in Hn. cbn [bind] in Hn.
  bind_inv Hn as vmin Hmin. bind_inv Hn as vmax Hmax.
  bind_inv Hn as p0 Hp0. bind_inv Hn as p1 Hp1.
  injection Hn as <-. exists p1. split; [ reflexivity | ].
  apply setitem_length in Hp1. apply setitem_length in Hp0.
  rewrite Hp1, Hp0. unfold np.clip. rewrite !length_map, Hsort.
  reflexivity.
Qed.

End InOrder.

(* ------------------------------------------------------------------ *)
(** ** What reaches matplotlib *)

Section Constructors.

Context {M : mcolors}.


End Constructors.

Section BoundaryLimit.

#[local] Existing Instance Mpl.matplotlib.



End BoundaryLimit.

(* ------------------------------------------------------------------ *)
(** ** The palette of a band without a palette of its own *)


Section Fallback.

Context {M : mcolors}.

Variable named : string -> color.
Variable rgb : Q -> Q -> Q -> color.
Variables Greys Greys_r : Q -> rgba.


End Fallback.

(* ------------------------------------------------------------------ *)
(** ** The further properties on matplotlib *)

Section FurtherOnMatplotlib.

#[local] Existing Instance Mpl.matplotlib.

Lemma valid_colors_resolved_witness :
  exists res,
    _colors_from_spec (Colors [Mpl.Name "black"; Mpl.Name "white"]) 3
    = Ok res /\
    length res = 3%nat /\
    (Forall in_gamut [RGBA 0 0 0 1; RGBA 1 1 1 1] -> Forall in_gamut res).
Proof.
  apply (valid_colors_resolved (M := Mpl.matplotlib)
           [Mpl.Name "black"; Mpl.Name "white"]
           [RGBA 0 0 0 1; RGBA 1 1 1 1] 3);
    [ reflexivity | discriminate ].
Defined.

Lemma interpolation_end_colors_witness :
  exists res,
    _colors_from_spec (Colors [Mpl.Name "black"; Mpl.Name "white"]) 3
    = Ok res /\
    rgba_eq (nth 0 res (RGBA 0 0 0 0))
            (nth 0 [RGBA 0 0 0 1; RGBA 1 1 1 1] (RGBA 0 0 0 0)) /\
    rgba_eq (last res (RGBA 0 0 0 0))
            (last [RGBA 0 0 0 1; RGBA 1 1 1 1] (RGBA 0 0 0 0)).
Proof.
  apply (interpolation_end_colors (M := Mpl.matplotlib)
           [Mpl.Name "black"; Mpl.Name "white"]
           [RGBA 0 0 0 1; RGBA 1 1 1 1] 3);
    [ reflexivity | simpl; lia | lia ].
Defined.

Lemma invalid_first_color_witness :
  ((1 <= 2)%nat ->
   _colors_from_spec (Colors [Mpl.Name "nocolor"; Mpl.Name "white"]) 2
   = Raise "ValueError"%string) /\
  ([0; 1] <> [] ->
   creates_palette
     [Pal (Colors [Mpl.Name "nocolor"; Mpl.Name "white"]) [0; 1] []] "both"
   = Raise "ValueError"%string).
Proof.
  apply (invalid_first_color (M := Mpl.matplotlib) (Mpl.Name "nocolor")
           [Mpl.Name "white"] "ValueError"%string 2 [0; 1] [] [] "both").
  reflexivity.
Defined.

Lemma segment_order_irrelevant_witness :
  exists vals' cols',
    accumulate [Pal (@Colors Mpl.matplotlib [Mpl.Name "white"]) [0] [];
                Pal (@Colors Mpl.matplotlib [Mpl.Name "black"]) [5; 10] []]
    = Ok (vals', cols') /\
    Permutation [5; 10; 0] vals' /\
    Forall2 Qeq (np.unique (np.sort [5; 10; 0]))
                (np.unique (np.sort vals')) /\
    (forall extend extend' r r',
       creates_palette
         [Pal (@Colors Mpl.matplotlib [Mpl.Name "black"]) [5; 10] [];
          Pal (@Colors Mpl.matplotlib [Mpl.Name "white"]) [0] []] extend
       = Ok r ->
       creates_palette
         [Pal (@Colors Mpl.matplotlib [Mpl.Name "white"]) [0] [];
          Pal (@Colors Mpl.matplotlib [Mpl.Name "black"]) [5; 10] []] extend'
       = Ok r' ->
       Forall2 Qeq (bounds r) (bounds r')).
Proof.
  eapply (segment_order_irrelevant (M := Mpl.matplotlib)
            [Pal (@Colors Mpl.matplotlib [Mpl.Name "black"]) [5; 10] [];
             Pal (@Colors Mpl.matplotlib [Mpl.Name "white"]) [0] []]
            [Pal (@Colors Mpl.matplotlib [Mpl.Name "white"]) [0] [];
             Pal (@Colors Mpl.matplotlib [Mpl.Name "black"]) [5; 10] []]
            [5; 10; 0]).
  - apply perm_swap.
  - vm_compute. reflexivity.
Defined.

Lemma stops_affine_witness :
  exists cl,
    color_list_of black_to_white = Ok (np.sort [0; 5; 10], cl) /\
    Forall2 (fun p v => p == (v - 0) / (10 - 0))
            (map fst cl) (np.sort [0; 5; 10]).
Proof.
  eapply (stops_affine (M := Mpl.matplotlib) black_to_white [0; 5; 10]).
  - vm_compute. reflexivity.
  - reflexivity.
  - reflexivity.
  - reflexivity.
Defined.

Lemma ascending_values_keep_order_witness :
  np.unique (np.sort [0; 5; 10]) = [0; 5; 10] /\
  exists ps,
    color_list_of black_to_white
    = Ok ([0; 5; 10],
          combine ps [RGBA (0 # 4) (0 # 4) (0 # 4) (4 # 4);
                      RGBA (2 # 4) (2 # 4) (2 # 4) (4 # 4);
                      RGBA (4 # 4) (4 # 4) (4 # 4) (4 # 4)]) /\
    length ps = length [0; 5; 10].
Proof.
  apply (ascending_values_keep_order (M := Mpl.matplotlib) black_to_white
           [0; 5; 10]
           [RGBA (0 # 4) (0 # 4) (0 # 4) (4 # 4);
            RGBA (2 # 4) (2 # 4) (2 # 4) (4 # 4);
            RGBA (4 # 4) (4 # 4) (4 # 4) (4 # 4)]).
  - vm_compute. reflexivity.
  - discriminate.
  - repeat first [ reflexivity | constructor ].
Defined.


End FurtherOnMatplotlib.
